(** * Speech recognition ponyfill: the session loop, the audio chunk monitor
      and the factory guard

    Shallow embedding of [createSpeechRecognitionPonyfill] (the second module
    held in [SpeechSynthesisUtterance.js], lines 130-668): the chunk callback
    installed on [audioConfig.attach], the factory guard, [start] and
    [_startOnce].

    Conventions.
    - A JS string is a [string] of code units below 256; truthiness of a
      string is non-emptiness, [undefined] is [None].
    - [let x;] followed by boolean use is a [bool] that starts [false].
    - The promise queue is the list of the events that [queue.shift()] hands
      over, in push order; on the empty list the loop stays suspended
      ([PromiseQueue]).
    - Calls into the Speech SDK that the code awaits are given their outcome
      (resolved or rejected) by a [Recognizer] record. *)

From Stdlib Require Import List String Ascii Bool Arith ZArith QArith Lia.
From Stdlib.Strings Require Import Byte.
From Stdlib Require Import Sorting.Sorted Sorting.Permutation.
Import ListNotations.

Local Open Scope nat_scope.
Local Open Scope string_scope.
Local Open Scope list_scope.

(** ** Regular expressions used by the loop *)

(** [\s] of ECMAScript (WhiteSpace and LineTerminator) on code units below
    256: TAB, LF, VT, FF, CR, SP and NBSP. *)
Definition is_whitespace (c : ascii) : bool :=
  let n := nat_of_ascii c in
  (Nat.leb 9 n && Nat.leb n 13) || Nat.eqb n 32 || Nat.eqb n 160.

(** [s] with the literal [p] removed from its front, when [p] is a prefix. *)
Fixpoint strip_prefix (p s : string) : option string :=
  match p, s with
  | EmptyString, _ => Some s
  | String a p', String b s' => if Ascii.eqb a b then strip_prefix p' s' else None
  | String _ _, EmptyString => None
  end.

(** An unanchored [RegExp.prototype.test]: the pattern is tried at every
    position of the subject. *)
Fixpoint test_anywhere (at_start : string -> bool) (s : string) : bool :=
  at_start s ||
  match s with
  | EmptyString => false
  | String _ s' => test_anywhere at_start s'
  end.

(** [/Permission\sdenied/u.test(s)] *)
Definition test_Permission_denied (s : string) : bool :=
  test_anywhere
    (fun t => match strip_prefix "Permission" t with
              | Some (String c rest) =>
                  is_whitespace c &&
                  match strip_prefix "denied" rest with Some _ => true | None => false end
              | _ => false
              end) s.

(** [/1006/u.test(s)] *)
Definition test_1006 (s : string) : bool :=
  test_anywhere
    (fun t => match strip_prefix "1006" t with Some _ => true | None => false end) s.

(** Truthiness of a possibly undefined string. *)
Definition truthy (s : option string) : bool :=
  match s with
  | Some (String _ _) => true
  | _ => false
  end.

(** [s || ''] *)
Definition or_empty (s : option string) : string :=
  match s with
  | Some t => t
  | None => ""
  end.

(** ** Data exchanged with the Speech SDK *)

(** [SpeechSDK.ResultReason] *)
Inductive ResultReason :=
| NoMatch | Canceled | RecognizingSpeech | RecognizedSpeech
| RecognizingIntent | RecognizedIntent | TranslatingSpeech | TranslatedSpeech.

Scheme Equality for ResultReason.

(** One entry of the service's [NBest] array. *)
Record NBestEntry := {
  Confidence : Q;
  Lexical : string;
  ITN : string;
  MaskedITN : string;
  Display : string
}.

(** What [serializeRecognitionResult] keeps of a vendor result, as far as the
    loop and the normalizer read it: [reason], [text] and [json.NBest] (an
    absent [NBest] is the empty list). *)
Record RecognitionResult := {
  reason : ResultReason;
  text : string;
  NBest : list NBestEntry
}.

(** The events pushed on the queue by the callbacks of [_startOnce]
    (lines 363-438): objects with exactly one key.  Of the payloads only
    the fields the loop reads are kept. *)
Inductive SessionEvent :=
| abort
| stop
| audioSourceReady
| audioSourceOff
| firstAudibleChunk
| canceled (errorDetails : option string)
| recognized (result : RecognitionResult)
| recognizing (result : RecognitionResult)
| sessionStarted
| sessionStopped
| speechStartDetected
| speechEndDetected.

(** Modelled from the spec: [createPromiseQueue] is imported at line 139
    and its module is not among the sources.  Section 4.1 of the
    specification: [push] never blocks, [shift] resolves with the next
    event in push order, nothing is dropped or reordered, and a reader
    stays suspended until an event is available.  A queue is given by the
    events it delivers, in order; [shift] on the empty list is the reader
    left suspended. *)
Definition PromiseQueue : Type := list SessionEvent.

(** ** Web Speech API values *)

Record SpeechRecognitionAlternative := {
  confidence : Q;
  transcript : string
}.

(** The array returned by the normalizer, with its [isFinal] property. *)
Record SpeechRecognitionResult := {
  alternatives : list SpeechRecognitionAlternative;
  isFinal : bool
}.

Inductive TextNormalization := display | itn | lexical | maskeditn.

(** A value raised by [throw] or by a rejected promise. *)
Inductive Failure :=
| TypeError (message : string)
| RangeError (message : string)
| ReferenceError (message : string)
| Rejection (reason : string).

(** The [error] member of an [ErrorEvent]: one of the codes staged by the
    loop, or the failure caught by [start]. *)
Inductive ErrorValue :=
| ErrorCode (code : string)
| Thrown (err : Failure).

(** The events handed to [dispatchEvent]. *)
Inductive DomEvent :=
| SpeechRecognitionEvent (type : string)
    (data : option SessionEvent) (results : option (list SpeechRecognitionResult))
| ErrorEvent (type : string) (error : ErrorValue).

Definition event_type (e : DomEvent) : string :=
  match e with
  | SpeechRecognitionEvent t _ _ => t
  | ErrorEvent t _ => t
  end.

(** [new SpeechRecognitionEvent(type)] *)
Definition plain (type : string) : DomEvent := SpeechRecognitionEvent type None None.

(** [finalEvent]: [{ error, type: 'error' }] or [{ results, type: 'result' }]. *)
Inductive FinalEvent :=
| FinalError (error : string)
| FinalResult (results : list SpeechRecognitionResult).

(** ** Observable actions *)

(** What the code does to its surroundings, in program order. *)
Inductive Action :=
| dispatchEvent (e : DomEvent)
| createRecognizer
| addReferenceGrammar (grammars : list string)
| addPhrase (phrases : list string)
| startContinuousRecognitionAsync
| stopContinuousRecognitionAsync
| detachAudioConfigEvent
| dispose.

Definition dispatched_event (a : Action) : option DomEvent :=
  match a with
  | dispatchEvent e => Some e
  | _ => None
  end.

(** The events dispatched by a run, in order. *)
Fixpoint dispatched (tr : list Action) : list DomEvent :=
  match tr with
  | [] => []
  | a :: tr' =>
      match dispatched_event a with
      | Some e => e :: dispatched tr'
      | None => dispatched tr'
      end
  end.

(** The lifecycle events: everything but the [cognitiveservices] debugging
    event that line 458 dispatches for every dequeued event. *)
Definition is_lifecycle (e : DomEvent) : bool :=
  negb (String.eqb (event_type e) "cognitiveservices").

Definition lifecycle (tr : list Action) : list DomEvent :=
  filter is_lifecycle (dispatched tr).

(** Number of dispatched events of a given type. *)
Definition count_type (t : string) (tr : list Action) : nat :=
  List.length (filter (fun e => String.eqb (event_type e) t) (dispatched tr)).

(** The event dispatched last, if any. *)
Definition last_dispatched (tr : list Action) : option DomEvent :=
  last (map Some (dispatched tr)) None.

(** The failures carried by the dispatched [ErrorEvent]s. *)
Fixpoint thrown_failures (tr : list Action) : list Failure :=
  match tr with
  | [] => []
  | dispatchEvent (ErrorEvent _ (Thrown err)) :: tr' => err :: thrown_failures tr'
  | _ :: tr' => thrown_failures tr'
  end.

(** The [results] of the dispatched [result] events. *)
Fixpoint result_payloads (tr : list Action) : list (list SpeechRecognitionResult) :=
  match tr with
  | [] => []
  | dispatchEvent (SpeechRecognitionEvent type _ (Some results)) :: tr' =>
      if String.eqb type "result" then results :: result_payloads tr' else result_payloads tr'
  | _ :: tr' => result_payloads tr'
  end.

(** ** Session configuration and state *)

(** The properties of the [SpeechRecognition] object and the factory options
    read by the loop, taken as they stand for the whole session. *)
Record Config := {
  continuous : bool;
  interimResults : bool;
  maxAlternatives : nat;
  looseEvents : bool;
  textNormalization : TextNormalization;
  referenceGrammars : option (list string);
  phrases : option (list string)
}.

(** Outcomes of the awaited and teardown calls on the recognizer: [None]
    when the call succeeds, [Some err] when it rejects or throws. *)
Record Recognizer := {
  createRecognizer_fails : option Failure;
  startContinuousRecognition_fails : option Failure;
  stopContinuousRecognition_fails : option Failure;
  detach_fails : option Failure;
  dispose_fails : option Failure
}.

(** The variables of [_startOnce] and the two variables of the factory
    closure it assigns ([muted], [onAudibleChunk]; the latter is either the
    one-shot closure of line 363, [true], or [null]). *)
Record LoopState := {
  soundStarted : bool;
  speechStarted : bool;
  stopping : bool;
  audioStarted : bool;
  finalEvent : option FinalEvent;
  finalizedResults : list SpeechRecognitionResult;
  loop : nat;
  muted : bool;
  onAudibleChunk : bool
}.

Definition set_soundStarted (b : bool) (s : LoopState) : LoopState :=
  {| soundStarted := b; speechStarted := speechStarted s; stopping := stopping s;
     audioStarted := audioStarted s; finalEvent := finalEvent s;
     finalizedResults := finalizedResults s; loop := loop s;
     muted := muted s; onAudibleChunk := onAudibleChunk s |}.

Definition set_speechStarted (b : bool) (s : LoopState) : LoopState :=
  {| soundStarted := soundStarted s; speechStarted := b; stopping := stopping s;
     audioStarted := audioStarted s; finalEvent := finalEvent s;
     finalizedResults := finalizedResults s; loop := loop s;
     muted := muted s; onAudibleChunk := onAudibleChunk s |}.

Definition set_stopping (b : bool) (s : LoopState) : LoopState :=
  {| soundStarted := soundStarted s; speechStarted := speechStarted s; stopping := b;
     audioStarted := audioStarted s; finalEvent := finalEvent s;
     finalizedResults := finalizedResults s; loop := loop s;
     muted := muted s; onAudibleChunk := onAudibleChunk s |}.

Definition set_audioStarted (b : bool) (s : LoopState) : LoopState :=
  {| soundStarted := soundStarted s; speechStarted := speechStarted s; stopping := stopping s;
     audioStarted := b; finalEvent := finalEvent s;
     finalizedResults := finalizedResults s; loop := loop s;
     muted := muted s; onAudibleChunk := onAudibleChunk s |}.

Definition set_finalEvent (f : option FinalEvent) (s : LoopState) : LoopState :=
  {| soundStarted := soundStarted s; speechStarted := speechStarted s; stopping := stopping s;
     audioStarted := audioStarted s; finalEvent := f;
     finalizedResults := finalizedResults s; loop := loop s;
     muted := muted s; onAudibleChunk := onAudibleChunk s |}.

Definition set_finalizedResults (r : list SpeechRecognitionResult) (s : LoopState) : LoopState :=
  {| soundStarted := soundStarted s; speechStarted := speechStarted s; stopping := stopping s;
     audioStarted := audioStarted s; finalEvent := finalEvent s;
     finalizedResults := r; loop := loop s;
     muted := muted s; onAudibleChunk := onAudibleChunk s |}.

Definition set_loop (n : nat) (s : LoopState) : LoopState :=
  {| soundStarted := soundStarted s; speechStarted := speechStarted s; stopping := stopping s;
     audioStarted := audioStarted s; finalEvent := finalEvent s;
     finalizedResults := finalizedResults s; loop := n;
     muted := muted s; onAudibleChunk := onAudibleChunk s |}.

Definition set_muted (b : bool) (s : LoopState) : LoopState :=
  {| soundStarted := soundStarted s; speechStarted := speechStarted s; stopping := stopping s;
     audioStarted := audioStarted s; finalEvent := finalEvent s;
     finalizedResults := finalizedResults s; loop := loop s;
     muted := b; onAudibleChunk := onAudibleChunk s |}.

Definition set_onAudibleChunk (b : bool) (s : LoopState) : LoopState :=
  {| soundStarted := soundStarted s; speechStarted := speechStarted s; stopping := stopping s;
     audioStarted := audioStarted s; finalEvent := finalEvent s;
     finalizedResults := finalizedResults s; loop := loop s;
     muted := muted s; onAudibleChunk := b |}.

(** The state when the loop is entered: [muted = false] (line 361), the
    audible-chunk callback armed (line 363), everything else unset. *)
Definition initial_state : LoopState :=
  {| soundStarted := false; speechStarted := false; stopping := false;
     audioStarted := false; finalEvent := None; finalizedResults := [];
     loop := 0; muted := false; onAudibleChunk := true |}.

(** ** A monad for one loop iteration

    A statement runs from a state, performs actions, and either falls
    through with a value, leaves the loop by [break], or throws. *)

Inductive Signal (A : Type) :=
| Next (a : A) (s : LoopState)
| Break (s : LoopState)
| Throw (err : Failure).

Arguments Next {A} a s.
Arguments Break {A} s.
Arguments Throw {A} err.

Definition Stmt (A : Type) : Type := LoopState -> list Action * Signal A.

Definition ret {A} (a : A) : Stmt A := fun s => ([], Next a s).

Definition bind {A B} (m : Stmt A) (f : A -> Stmt B) : Stmt B :=
  fun s =>
    match m s with
    | (tr, Next a s') => let (tr', r) := f a s' in (tr ++ tr', r)
    | (tr, Break s') => (tr, Break s')
    | (tr, Throw err) => (tr, Throw err)
    end.

Declare Scope stmt_scope.
Delimit Scope stmt_scope with stmt.
Notation "x <- m ;; k" := (bind m (fun x => k))
  (at level 61, m at next level, right associativity) : stmt_scope.
Notation "m ;; k" := (bind m (fun _ => k))
  (at level 61, right associativity) : stmt_scope.

Definition skip : Stmt unit := ret tt.
Definition get {A} (f : LoopState -> A) : Stmt A := fun s => ([], Next (f s) s).
Definition modify (f : LoopState -> LoopState) : Stmt unit := fun s => ([], Next tt (f s)).
Definition act (a : Action) : Stmt unit := fun s => ([a], Next tt s).
Definition break {A} : Stmt A := fun s => ([], Break s).
Definition throw {A} (err : Failure) : Stmt A := fun _ => ([], Throw err).

(** [this.dispatchEvent(e)] *)
Definition dispatch (e : DomEvent) : Stmt unit := act (dispatchEvent e).

(** [c && stmt], and an [if] without [else]. *)
Definition when (c : bool) (m : Stmt unit) : Stmt unit := if c then m else skip.

(** [await] of a call whose outcome is [o]. *)
Definition await (a : Action) (o : option Failure) : Stmt unit :=
  fun s => match o with
           | None => ([a], Next tt s)
           | Some err => ([a], Throw err)
           end.

(** ** The session: [_startOnce] and [start] *)

Section Session.

(** [cognitiveServiceEventResultToWebSpeechRecognitionResultList] (imported
    at line 138 from a module of its own): the loop is embedded for whatever
    this function returns on [(result, { maxAlternatives, textNormalization })]. *)
Variable normalize :
  RecognitionResult -> nat -> TextNormalization -> SpeechRecognitionResult.

Variable config : Config.
Variable recognizer : Recognizer.

Local Open Scope stmt_scope.

(** Lines 315-322 with line 458: one debugging event per key of the event. *)
Definition emitCognitiveServices (event : SessionEvent) : Stmt unit :=
  dispatch (SpeechRecognitionEvent "cognitiveservices" (Some event) None).

(** [canceled && canceled.errorDetails] *)
Definition errorMessage_of (event : SessionEvent) : option string :=
  match event with
  | canceled errorDetails => errorDetails
  | _ => None
  end.

(** Lines 535-552. *)
Definition backfill_starts : Stmt unit :=
  a <- get audioStarted ;;
  when (negb a) (dispatch (plain "audiostart") ;; modify (set_audioStarted true)) ;;
  b <- get soundStarted ;;
  when (negb b) (dispatch (plain "soundstart") ;; modify (set_soundStarted true)) ;;
  c <- get speechStarted ;;
  when (negb c) (dispatch (plain "speechstart") ;; modify (set_speechStarted true)).

(** [new SpeechRecognitionEvent(finalEvent.type, finalEvent)]: the
    constructor keeps [results] and drops [error]. *)
Definition SpeechRecognitionEvent_of_final (f : FinalEvent) : DomEvent :=
  match f with
  | FinalError _ => SpeechRecognitionEvent "error" None None
  | FinalResult rs => SpeechRecognitionEvent "result" None (Some rs)
  end.

(** Lines 554-592. *)
Definition on_recognized (r : RecognitionResult) : Stmt unit :=
  let result := normalize r (maxAlternatives config) (textNormalization config) in
  match alternatives result with
  | [] => throw (TypeError "Cannot read property 'transcript' of undefined")
  | top :: _ =>
      let recognizable := negb (String.eqb (transcript top) "") in
      when recognizable
        (modify (fun s => set_finalizedResults (finalizedResults s ++ [result]) s) ;;
         fin <- get finalizedResults ;;
         when (continuous config)
           (dispatch (SpeechRecognitionEvent "result" None (Some fin)))) ;;
      (if continuous config && recognizable
       then modify (set_finalEvent None)
       else fin <- get finalizedResults ;;
            modify (set_finalEvent (Some (FinalResult fin)))) ;;
      when (negb (continuous config)) (act stopContinuousRecognitionAsync) ;;
      fe <- get finalEvent ;;
      match fe with
      | Some f =>
          when (looseEvents config && recognizable)
            (dispatch (SpeechRecognitionEvent_of_final f) ;;
             modify (set_finalEvent None))
      | None => skip
      end
  end.

(** Lines 593-606. *)
Definition on_recognizing (r : RecognitionResult) : Stmt unit :=
  fin <- get finalizedResults ;;
  when (interimResults config)
    (dispatch (SpeechRecognitionEvent "result" None
       (Some (fin ++ [normalize r (maxAlternatives config) (textNormalization config)])))).

(** Lines 520-528, up to the [break]. *)
Definition on_audioSourceOff : Stmt unit :=
  modify (set_stopping true) ;;
  c <- get speechStarted ;; when c (dispatch (plain "speechend")) ;;
  b <- get soundStarted ;; when b (dispatch (plain "soundend")) ;;
  a <- get audioStarted ;; when a (dispatch (plain "audioend")) ;;
  modify (set_speechStarted false) ;;
  modify (set_soundStarted false) ;;
  modify (set_audioStarted false).

(** The body of the [for] loop, lines 445-607, for one dequeued event. *)
Definition body (event : SessionEvent) : Stmt unit :=
  emitCognitiveServices event ;;
  let errorMessage := errorMessage_of event in
  if test_Permission_denied (or_empty errorMessage) then
    modify (set_finalEvent (Some (FinalError "not-allowed"))) ;;
    break
  else
    n <- get loop ;;
    when (Nat.eqb n 0) (dispatch (plain "start")) ;;
    if truthy errorMessage then
      (if test_1006 (or_empty errorMessage) then
         a <- get audioStarted ;;
         when (negb a)
           (dispatch (plain "audiostart") ;; dispatch (plain "audioend")) ;;
         modify (set_finalEvent (Some (FinalError "network")))
       else
         modify (set_finalEvent (Some (FinalError "unknown")))) ;;
      break
    else
      match event with
      | abort =>
          modify (set_finalEvent (Some (FinalError "aborted"))) ;;
          modify (set_stopping true) ;;
          await stopContinuousRecognitionAsync (stopContinuousRecognition_fails recognizer)
      | stop =>
          modify (set_muted true) ;;
          modify (set_stopping true)
      | audioSourceReady =>
          dispatch (plain "audiostart") ;;
          modify (set_audioStarted true)
      | firstAudibleChunk =>
          dispatch (plain "soundstart") ;;
          modify (set_soundStarted true)
      | audioSourceOff =>
          on_audioSourceOff ;;
          break
      | recognized r =>
          if ResultReason_beq (reason r) NoMatch then
            modify (set_finalEvent (Some (FinalError "no-speech")))
          else
            backfill_starts ;;
            on_recognized r
      | recognizing r =>
          backfill_starts ;;
          on_recognizing r
      | _ => skip
      end.

(** How the [for] loop of lines 444-608 stands once the queued events are
    used up. *)
Inductive LoopEnd :=
| Left (s : LoopState)       (* left by [break] or by its condition *)
| Awaiting (s : LoopState)   (* suspended in [await queue.shift()] *)
| Thrown_in_loop (err : Failure).

(** The [for] loop: [loop] counts the completed iterations; the condition
    [!stopping || audioStarted] is tested before each [queue.shift()]. *)
Fixpoint run_loop (s : LoopState) (queue : PromiseQueue) : list Action * LoopEnd :=
  if negb (stopping s) || audioStarted s then
    match queue with
    | [] => ([], Awaiting s)
    | event :: queue' =>
        match body event s with
        | (tr, Next _ s') =>
            let (tr', e) := run_loop (set_loop (S (loop s')) s') queue' in
            (tr ++ tr', e)
        | (tr, Break s') => (tr, Left s')
        | (tr, Throw err) => (tr, Thrown_in_loop err)
        end
    end
  else ([], Left s).

(** Line 625-630: an empty staged result becomes a [no-speech] error. *)
Definition promote_empty_result (f : FinalEvent) : FinalEvent :=
  match f with
  | FinalResult [] => FinalError "no-speech"
  | _ => f
  end.

(** Lines 632-636. *)
Definition dispatch_final (f : FinalEvent) : Stmt unit :=
  match f with
  | FinalError e => dispatch (ErrorEvent "error" (ErrorCode e))
  | FinalResult _ => dispatch (SpeechRecognitionEvent_of_final f)
  end.

(** Lines 610-644: the code after the loop. *)
Definition after_loop : Stmt unit :=
  modify (set_onAudibleChunk false) ;;
  c <- get speechStarted ;; when c (dispatch (plain "speechend")) ;;
  b <- get soundStarted ;; when b (dispatch (plain "soundend")) ;;
  a <- get audioStarted ;; when a (dispatch (plain "audioend")) ;;
  fe <- get finalEvent ;;
  match fe with
  | Some f => dispatch_final (promote_empty_result f)
  | None => skip
  end ;;
  dispatch (plain "end") ;;
  await detachAudioConfigEvent (detach_fails recognizer) ;;
  await dispose (dispose_fails recognizer).

(** [xs && xs.length && f(xs)] *)
Definition when_nonempty (xs : option (list string)) (f : list string -> Action) : Stmt unit :=
  match xs with
  | Some (x :: rest) => act (f (x :: rest))
  | _ => skip
  end.

(** Lines 355-442: the recognizer is created, the closure variables are
    set, the callbacks are installed (they only push on the queue), the
    grammars are injected and continuous recognition is started. *)
Definition setup : Stmt unit :=
  await createRecognizer (createRecognizer_fails recognizer) ;;
  modify (set_muted false) ;;
  modify (set_onAudibleChunk true) ;;
  when_nonempty (referenceGrammars config) addReferenceGrammar ;;
  when_nonempty (phrases config) addPhrase ;;
  await startContinuousRecognitionAsync (startContinuousRecognition_fails recognizer).

(** The state of the variables before [_startOnce] assigns them. *)
Definition unset_state : LoopState :=
  {| soundStarted := false; speechStarted := false; stopping := false;
     audioStarted := false; finalEvent := None; finalizedResults := [];
     loop := 0; muted := false; onAudibleChunk := false |}.

(** How the promise returned by [_startOnce] stands once the queued events
    are used up. *)
Inductive Completion :=
| Resolved
| Pending
| Rejected (err : Failure).

(** The loop and the code after it, from the state [s]. *)
Definition session_from (s : LoopState) (queue : PromiseQueue) : list Action * Completion :=
  match run_loop s queue with
  | (tr, Left s') =>
      match after_loop s' with
      | (tr', Next _ _) => (tr ++ tr', Resolved)
      | (tr', Break _) => (tr ++ tr', Resolved)
      | (tr', Throw err) => (tr ++ tr', Rejected err)
      end
  | (tr, Awaiting _) => (tr, Pending)
  | (tr, Thrown_in_loop err) => (tr, Rejected err)
  end.

(** [async _startOnce()], lines 353-645, on the events the queue delivers. *)
Definition _startOnce (queue : PromiseQueue) : list Action * Completion :=
  match setup unset_state with
  | (tr, Next _ s) =>
      let (tr', c) := session_from s queue in (tr ++ tr', c)
  | (tr, Break _) => (tr, Resolved)
  | (tr, Throw err) => (tr, Rejected err)
  end.

(** How a call of [start] ends for its caller. *)
Inductive CallResult :=
| Returns
| Propagates (err : Failure).

(** [start()], lines 347-351: the rejection handler dispatches an
    [ErrorEvent] that carries the failure. *)
Definition start (queue : PromiseQueue) : list Action * CallResult :=
  match _startOnce queue with
  | (tr, Rejected err) => (tr ++ [dispatchEvent (ErrorEvent "error" (Thrown err))], Returns)
  | (tr, _) => (tr, Returns)
  end.

End Session.

Arguments _startOnce normalize config recognizer queue : assert.

(** ** The result normalizer *)

(** The text rendering selected by a normalization mode. *)
Definition rendering (mode : TextNormalization) (e : NBestEntry) : string :=
  match mode with
  | display => Display e
  | itn => ITN e
  | lexical => Lexical e
  | maskeditn => MaskedITN e
  end.

(** Modelled from the spec: [cognitiveServiceEventResultToWebSpeechRecognitionResultList]
    is imported at line 138 and its module is not among the sources.
    Section 4.3 of the specification: the configured rendering of each of
    the top [maxAlternatives] n-best entries, in input order; [isFinal]
    tells a finalized result from an interim one; an empty n-best list
    yields a single alternative with the empty transcript. *)
Definition cognitiveServiceEventResultToWebSpeechRecognitionResultList
    (result : RecognitionResult) (maxAlternatives : nat) (mode : TextNormalization)
    : SpeechRecognitionResult :=
  {| alternatives :=
       match NBest result with
       | [] => [ {| confidence := 0%Q; transcript := "" |} ]
       | nbest =>
           map (fun e => {| confidence := Confidence e; transcript := rendering mode e |})
               (firstn maxAlternatives nbest)
       end;
     isFinal := ResultReason_beq (reason result) RecognizedSpeech |}.

(** ** The audio chunk monitor (lines 199-203 and 258-283) *)

(** A chunk handed over by the reader of the audio source; [buffer] is
    the content of its [ArrayBuffer]. *)
Record Chunk := {
  buffer : list byte;
  isEnd : bool;
  timeReceived : Z
}.

(** One element of an [Int16Array]: two bytes, low byte first (the byte
    order of the platforms browsers run on), read as a two's complement
    16-bit integer. *)
Definition int16 (lo hi : byte) : Z :=
  let u := (Z.of_N (Byte.to_N lo) + 256 * Z.of_N (Byte.to_N hi))%Z in
  if (u <? 32768)%Z then u else (u - 65536)%Z.

(** [new Int16Array(arrayBuffer)]: a view of the whole buffer; the
    constructor throws a [RangeError] when the byte length is odd. *)
Fixpoint Int16Array (arrayBuffer : list byte) : option (list Z) :=
  match arrayBuffer with
  | [] => Some []
  | [_] => None
  | lo :: hi :: rest => option_map (cons (int16 lo hi)) (Int16Array rest)
  end.

(** A JS number as [averageAmplitude] produces it: a quotient of two
    integers, or [NaN] for [0 / 0].  Sum and length are integers that a
    double holds exactly, and the rounded quotient compares with 150 as the
    exact one does for every array shorter than 2^46 elements. *)
Inductive Number :=
| NaN
| Finite (q : Q).

(** [x > k] *)
Definition greater_than (x : Number) (k : Z) : bool :=
  match x with
  | NaN => false
  | Finite q => negb (Qle_bool q (inject_Z k))
  end.

(** Lines 199-203. *)
Definition averageAmplitude (arrayBuffer : list byte) : Failure + Number :=
  match Int16Array arrayBuffer with
  | None => inl (RangeError "byte length of Int16Array should be a multiple of 2")
  | Some array =>
      let total := fold_left (fun averageAmplitude amplitude =>
                                (averageAmplitude + Z.abs amplitude)%Z) array 0%Z in
      inr (match array with
           | [] => NaN
           | _ :: _ => Finite (Qmake total (Pos.of_nat (List.length array)))
           end)
  end.

(** The chunk callback of lines 264-280, run at time [now] on the closure
    variables: the events it pushes on the queue, the variables afterwards,
    and the chunk it returns or the failure it raises. *)
Definition read_improviser (now : Z) (chunk : Chunk) (s : LoopState)
    : list SessionEvent * LoopState * (Failure + Chunk) :=
  match averageAmplitude (buffer chunk) with
  | inl err => ([], s, inl err)
  | inr amplitude =>
      let '(pushed, s') :=
        if greater_than amplitude 150 && onAudibleChunk s
        then ([firstAudibleChunk], set_onAudibleChunk false s)
        else ([], s) in
      if muted s'
      then (pushed, s', inr {| buffer := []; isEnd := true; timeReceived := now |})
      else (pushed, s', inr chunk)
  end.

(** ** The factory guard (lines 220-251 and 663-667) *)

Module Factory.

(** [authorizationToken]: a string, a function or a promise. *)
Inductive AuthorizationToken :=
| TokenString (s : string)
| TokenFunction
| TokenPromise.

Record Options := {
  audioConfig : option unit;
  authorizationToken : option AuthorizationToken;
  enableTelemetry : option bool;
  looseEvent : option bool;
  looseEvents : option bool;
  subscriptionKey : option string
}.

(** [window.navigator.mediaDevices], and whether it has [getUserMedia]. *)
Record MediaDevices := { getUserMedia : bool }.
Record Navigator := { mediaDevices : option MediaDevices }.

(** The global [window].  It is not declared outside a page (Node.js, a
    worker), which line 294 provides for with [typeof window], and an
    object that stands in for it may be without [navigator]. *)
Record Window := { navigator : option Navigator }.

(** A page of a browser whose [window.navigator] is [n]. *)
Definition browser (n : Navigator) : option Window :=
  Some {| navigator := Some n |}.

Inductive Effect :=
| console_warn (message : string)
| improvise_attach
| SpeechRecognizer_enableTelemetry (value : bool).

(** The returned object: [{}], or the three exports with the
    [looseEvents] option the [SpeechRecognition] class closes over. *)
Inductive Ponyfill :=
| EmptyObject
| Exports (looseEvents : option bool).

Definition keys (p : Ponyfill) : list string :=
  match p with
  | EmptyObject => []
  | Exports _ => ["SpeechGrammarList"; "SpeechRecognition"; "SpeechRecognitionEvent"]
  end.

Definition token_truthy (t : option AuthorizationToken) : bool :=
  match t with
  | None => false
  | Some (TokenString s) => truthy (Some s)
  | Some _ => true
  end.

Definition has_getUserMedia (n : Navigator) : bool :=
  match mediaDevices n with
  | Some m => getUserMedia m
  | None => false
  end.

(** The quotation mark. *)
Definition quote : string := String (ascii_of_nat 34) EmptyString.

(** [window.navigator] as line 241 reads it, on the way to
    [mediaDevices]: without a [window] the name does not resolve, and
    without a [navigator] the property access fails. *)
Definition window_navigator (window : option Window) : Failure + Navigator :=
  match window with
  | None => inl (ReferenceError "window is not defined")
  | Some w =>
      match navigator w with
      | None => inl (TypeError "Cannot read properties of undefined (reading 'mediaDevices')")
      | Some n => inr n
      end
  end.

(** Whether the environment has [getUserMedia] at all. *)
Definition supports_getUserMedia (window : option Window) : bool :=
  match window_navigator window with
  | inr n => has_getUserMedia n
  | inl _ => false
  end.

(** The default export, with the global [window] of the environment: the
    effects, and the object returned or the exception thrown.  The default
    value of [audioConfig] is an object the SDK builds without any effect
    outside it, so it does not show among the effects. *)
Definition createSpeechRecognitionPonyfill (window : option Window) (o : Options)
    : list Effect * (Failure + Ponyfill) :=
  if negb (token_truthy (authorizationToken o)) && negb (truthy (subscriptionKey o)) then
    ([console_warn "web-speech-cognitive-services: Either authorizationToken or subscriptionKey must be specified"],
     inr EmptyObject)
  else
    match window_navigator window with
    | inl err => ([], inl err)
    | inr n =>
        if negb (has_getUserMedia n) then
          ([console_warn "web-speech-cognitive-services: This browser does not support WebRTC and it will not work with Cognitive Services Speech Services."],
           inr EmptyObject)
        else
          let '(warned, loose) :=
            match looseEvent o with
            | Some v =>
                ([console_warn ("web-speech-cognitive-services: The option " ++ quote ++ "looseEvent"
                                ++ quote ++ " should be named as " ++ quote ++ "looseEvents" ++ quote ++ ".")],
                 Some v)
            | None => ([], looseEvents o)
            end in
          (warned ++
           [improvise_attach;
            SpeechRecognizer_enableTelemetry
              (match enableTelemetry o with Some false => false | _ => true end)],
           inr (Exports loose))
    end.

End Factory.

(** ** Vocabulary of the claims *)

(** [recognizable] of line 563 for a [recognized] event that reaches it:
    line 529 has not routed the result to [no-speech], and the top
    alternative has a non-empty transcript. *)
Definition recognizable
    (normalize : RecognitionResult -> nat -> TextNormalization -> SpeechRecognitionResult)
    (config : Config) (r : RecognitionResult) : bool :=
  negb (ResultReason_beq (reason r) NoMatch) &&
  match alternatives (normalize r (maxAlternatives config) (textNormalization config)) with
  | top :: _ => negb (String.eqb (transcript top) "")
  | [] => false
  end.

(** Events whose iteration leaves [finalEvent] as it is: all but [abort],
    [recognized] and a [canceled] with an error text. *)
Definition keeps_finalEvent (event : SessionEvent) : bool :=
  match event with
  | abort => false
  | recognized _ => false
  | canceled errorDetails => negb (truthy errorDetails)
  | _ => true
  end.

(** Events that end the loop by [break]: [audioSourceOff], and [canceled]
    with an error text. *)
Definition leaves_loop (event : SessionEvent) : bool :=
  match event with
  | audioSourceOff => true
  | canceled errorDetails => truthy errorDetails
  | _ => false
  end.

(** The end events the code after the loop owes to the flags still set. *)
Definition pending_ends (s : LoopState) : list DomEvent :=
  (if speechStarted s then [plain "speechend"] else []) ++
  (if soundStarted s then [plain "soundend"] else []) ++
  (if audioStarted s then [plain "audioend"] else []).

(** ** The three start/end pairs of the lifecycle *)

Inductive Phase := audio | sound | speech.

(** The flag the loop keeps for a pair. *)
Definition started (p : Phase) (s : LoopState) : bool :=
  match p with
  | audio => audioStarted s
  | sound => soundStarted s
  | speech => speechStarted s
  end.

Definition start_event (p : Phase) : string :=
  match p with
  | audio => "audiostart"
  | sound => "soundstart"
  | speech => "speechstart"
  end.

Definition end_event (p : Phase) : string :=
  match p with
  | audio => "audioend"
  | sound => "soundend"
  | speech => "speechend"
  end.

(** ** Sample inputs *)

(** A recognizer all of whose calls succeed. *)
Definition reliable : Recognizer :=
  {| createRecognizer_fails := None;
     startContinuousRecognition_fails := None;
     stopContinuousRecognition_fails := None;
     detach_fails := None;
     dispose_fails := None |}.

(** A recognizer whose awaited [stopContinuousRecognitionAsync] rejects. *)
Definition stop_rejecting : Recognizer :=
  {| createRecognizer_fails := None;
     startContinuousRecognition_fails := None;
     stopContinuousRecognition_fails := Some (Rejection "Unable to contact server");
     detach_fails := None;
     dispose_fails := None |}.

(** The settings of a fresh [SpeechRecognition] object, lines 292-296, with
    the factory defaults of lines 228-235. *)
Definition default_config : Config :=
  {| continuous := false;
     interimResults := false;
     maxAlternatives := 1;
     looseEvents := false;
     textNormalization := display;
     referenceGrammars := None;
     phrases := None |}.

Definition hello : RecognitionResult :=
  {| reason := RecognizedSpeech;
     text := "hello";
     NBest := [ {| Confidence := 9 # 10; Lexical := "hello"; ITN := "hello";
                   MaskedITN := "hello"; Display := "Hello." |} ] |}.

Definition continuous_config : Config :=
  {| continuous := true;
     interimResults := false;
     maxAlternatives := 1;
     looseEvents := false;
     textNormalization := display;
     referenceGrammars := None;
     phrases := None |}.

Definition interim_config : Config :=
  {| continuous := false;
     interimResults := true;
     maxAlternatives := 1;
     looseEvents := false;
     textNormalization := display;
     referenceGrammars := None;
     phrases := None |}.

(** A finalized result with an empty n-best list. *)
Definition silence : RecognitionResult :=
  {| reason := RecognizedSpeech; text := ""; NBest := [] |}.

Definition world : RecognitionResult :=
  {| reason := RecognizingSpeech;
     text := "wor";
     NBest := [ {| Confidence := 1 # 2; Lexical := "wor"; ITN := "wor";
                   MaskedITN := "wor"; Display := "wor" |} ] |}.

(** Factory options without credentials, and a browser with WebRTC. *)
Definition no_credentials : Factory.Options :=
  {| Factory.audioConfig := None;
     Factory.authorizationToken := None;
     Factory.enableTelemetry := None;
     Factory.looseEvent := None;
     Factory.looseEvents := None;
     Factory.subscriptionKey := None |}.

Definition webrtc_browser : Factory.Navigator :=
  {| Factory.mediaDevices := Some {| Factory.getUserMedia := true |} |}.

(** Factory options with a subscription key and nothing else. *)
Definition subscription_key_only : Factory.Options :=
  {| Factory.audioConfig := None;
     Factory.authorizationToken := None;
     Factory.enableTelemetry := None;
     Factory.looseEvent := None;
     Factory.looseEvents := None;
     Factory.subscriptionKey := Some "0123456789abcdef" |}.

(** A one-sample chunk of amplitude 300, and a chunk of a single byte. *)
Definition loud_chunk : Chunk :=
  {| buffer := [x2c; x01]; isEnd := false; timeReceived := 0%Z |}.

Definition odd_chunk : Chunk :=
  {| buffer := [x00]; isEnd := false; timeReceived := 0%Z |}.

(** The closure variables between a dequeued [stop] and the next event:
    the callback still armed, [muted] set. *)
Definition muted_state : LoopState :=
  set_stopping true (set_muted true initial_state).

(** ** Vocabulary of the further properties *)


(** The codes carried by the dispatched [ErrorEvent]s. *)
Fixpoint error_codes (tr : list Action) : list string :=
  match tr with
  | [] => []
  | dispatchEvent (ErrorEvent _ (ErrorCode code)) :: tr' => code :: error_codes tr'
  | _ :: tr' => error_codes tr'
  end.

(** The error codes of lines 465-501 and 529-533. *)
Definition taxonomy : list string :=
  ["not-allowed"; "network"; "unknown"; "aborted"; "no-speech"].

(** A staged error carries a code of the taxonomy. *)
Definition staged_in_taxonomy (s : LoopState) : Prop :=
  match finalEvent s with
  | Some (FinalError code) => In code taxonomy
  | _ => True
  end.

(** The code lines 462-493 give to the error text of a [canceled] event. *)
Definition code_of_error_text (message : string) : string :=
  if test_Permission_denied message then "not-allowed"
  else if test_1006 message then "network"
  else "unknown".

(** Events whose iteration can call [stopContinuousRecognitionAsync]:
    [abort] (line 510), and [recognized] outside continuous mode
    (line 584). *)
Definition may_stop_recognition (config : Config) (event : SessionEvent) : bool :=
  match event with
  | abort => true
  | recognized _ => negb (continuous config)
  | _ => false
  end.

Definition loose_config : Config :=
  {| continuous := false;
     interimResults := false;
     maxAlternatives := 1;
     looseEvents := true;
     textNormalization := display;
     referenceGrammars := None;
     phrases := None |}.

(** ** Successive reads of the audio source *)

(** Whether the test of line 271 holds for a buffer. *)
Definition audible (arrayBuffer : list byte) : bool :=
  match averageAmplitude arrayBuffer with
  | inr amplitude => greater_than amplitude 150
  | inl _ => false
  end.

(** The chunk callback run on one chunk after the other, each at its own
    time: the events pushed, the closure variables at the end, and what
    each read gave. *)
Fixpoint read_all (reads : list (Z * Chunk)) (s : LoopState)
    : list SessionEvent * LoopState * list (Failure + Chunk) :=
  match reads with
  | [] => ([], s, [])
  | (now, chunk) :: reads' =>
      let '(pushed, s', result) := read_improviser now chunk s in
      let '(pushed', s'', results) := read_all reads' s' in
      (pushed ++ pushed', s'', result :: results)
  end.

(** What a read gives when [muted] is not set. *)
Definition passed_through (read : Z * Chunk) : Failure + Chunk :=
  match averageAmplitude (buffer (snd read)) with
  | inl err => inl err
  | inr _ => inr (snd read)
  end.

(** ** The utterance (the first module of [SpeechSynthesisUtterance.js],
       lines 1-129) *)

Module Utterance.

(** What [play] and [stop] do, in program order. *)
Inductive Step :=
| emit (type : string) (error : option Failure)
| createBufferSource
| decodeAudioData (arrayBuffer : option (list byte))
| playDecoded
| source_stop.

(** How a promise stands when it is awaited: fulfilled with a value,
    rejected, or not settled, in which case the [await] does not return. *)
Inductive Promise (A : Type) :=
| fulfilled (a : A)
| rejected (err : Failure)
| pending.

Arguments fulfilled {A} a.
Arguments rejected {A} err.
Arguments pending {A}.

(** What the audio context does.  [createBufferSource] returns or throws.
    [decodeAudioData_settles] stands for the promise of lines 9-16, which
    the callbacks or the returned promise of [decodeAudioData] settle, and
    [playDecoded_settles] for the promise of lines 18-42: it is rejected
    when the calls on the source throw, fulfilled when the source ends,
    and pending as long as the source plays, also when the context is
    closed meanwhile, its listener being taken off again at line 39. *)
Record AudioContext := {
  createBufferSource_fails : option Failure;
  decodeAudioData_settles : option (list byte) -> Promise unit;
  playDecoded_settles : Promise unit
}.

(** The fields of the utterance that [preload], [play] and [stop] use:
    [arrayBufferPromise] is undefined before [preload], then the promise
    of [fetchSpeechData]; [_playingSource] is a source or null. *)
Record State := {
  arrayBufferPromise : option (Promise (list byte));
  _playingSource : bool
}.

(** Lines 80-104 in a page, where [window.navigator.language] can be read
    for an utterance without [lang], with the promise [fetchSpeechData]
    returns: it is kept, and its rejection is swallowed. *)
Definition preload (fetched : Promise (list byte)) (u : State) : State :=
  {| arrayBufferPromise := Some fetched; _playingSource := _playingSource u |}.

(** [await this.arrayBufferPromise]; awaiting [undefined] gives
    [undefined]. *)
Definition awaited (u : State) : Promise (option (list byte)) :=
  match arrayBufferPromise u with
  | None => fulfilled None
  | Some (fulfilled bytes) => fulfilled (Some bytes)
  | Some (rejected err) => rejected err
  | Some pending => pending
  end.

(** A call of [play]: what it has done, the fields it leaves, and whether
    its promise is resolved or still pending at an [await]. *)
Record Run := {
  trace : list Step;
  state : State;
  completion : Completion
}.

(** Lines 106-124. *)
Definition play (audioContext : AudioContext) (u : State) : Run :=
  match createBufferSource_fails audioContext with
  | Some err =>
      {| trace := [emit "start" None; createBufferSource; emit "error" (Some err)];
         state := u; completion := Resolved |}
  | None =>
      match awaited u with
      | pending =>
          {| trace := [emit "start" None; createBufferSource];
             state := u; completion := Pending |}
      | rejected err =>
          {| trace := [emit "start" None; createBufferSource; emit "error" (Some err)];
             state := u; completion := Resolved |}
      | fulfilled arrayBuffer =>
          match decodeAudioData_settles audioContext arrayBuffer with
          | pending =>
              {| trace := [emit "start" None; createBufferSource; decodeAudioData arrayBuffer];
                 state := u; completion := Pending |}
          | rejected err =>
              {| trace := [emit "start" None; createBufferSource; decodeAudioData arrayBuffer;
                           emit "error" (Some err)];
                 state := u; completion := Resolved |}
          | fulfilled _ =>
              match playDecoded_settles audioContext with
              | pending =>
                  {| trace := [emit "start" None; createBufferSource;
                               decodeAudioData arrayBuffer; playDecoded];
                     state := {| arrayBufferPromise := arrayBufferPromise u;
                                 _playingSource := true |};
                     completion := Pending |}
              | rejected err =>
                  {| trace := [emit "start" None; createBufferSource;
                               decodeAudioData arrayBuffer; playDecoded;
                               emit "error" (Some err)];
                     state := {| arrayBufferPromise := arrayBufferPromise u;
                                 _playingSource := true |};
                     completion := Resolved |}
              | fulfilled _ =>
                  {| trace := [emit "start" None; createBufferSource;
                               decodeAudioData arrayBuffer; playDecoded; emit "end" None];
                     state := {| arrayBufferPromise := arrayBufferPromise u;
                                 _playingSource := false |};
                     completion := Resolved |}
              end
          end
      end
  end.

(** Lines 126-128. *)
Definition stop (u : State) : list Step :=
  if _playingSource u then [source_stop] else [].

(** Whether a run got as far as the playback. *)
Definition played (steps : list Step) : bool :=
  existsb (fun step => match step with playDecoded => true | _ => false end) steps.

(** The events emitted by a run, in order. *)
Fixpoint emitted (steps : list Step) : list (string * option Failure) :=
  match steps with
  | [] => []
  | emit type error :: steps' => (type, error) :: emitted steps'
  | _ :: steps' => emitted steps'
  end.

End Utterance.

(** ** The list of voices ([fetchVoices.js]) *)

Module Voices.

Section FetchVoices.

(** The builtins [encodeURI] and [encodeURIComponent]. *)
Variable encodeURI encodeURIComponent : string -> string.

(** The class [SpeechSynthesisVoice], imported at line 3 from a module of
    its own: its constructor on [{ gender, lang, voiceURI }] and its [name]
    property. *)
Variable Voice : Type.
Variable SpeechSynthesisVoice : string -> string -> string -> Voice.
Variable name : Voice -> string.

(** One entry of the list the service returns. *)
Record Entry := {
  Gender : string;
  Locale : string;
  Name : string
}.

(** The response of [fetch], with the outcome of [res.json()]. *)
Record Response := {
  ok : bool;
  json : Failure + list Entry
}.

Record Request := {
  url : string;
  authorization : string;
  content_type : string
}.

(** What the promise of [fetchVoices] is rejected with. *)
Inductive Thrown :=
| Error (message : string)
| Raised (err : Failure).

(** Lines 8-19: the request. *)
Definition request (authorizationToken : string) (deploymentId : option string)
    (region : string) : Request :=
  {| url :=
       if truthy deploymentId then
         "https://" ++ encodeURI region ++
         ".voice.speech.microsoft.com/cognitiveservices/voices/list?deploymentId=" ++
         encodeURIComponent (or_empty deploymentId)
       else
         "https://" ++ encodeURI region ++
         ".tts.speech.microsoft.com/cognitiveservices/voices/list";
     authorization := "Bearer " ++ authorizationToken;
     content_type := "application/json" |}.

(** Line 29: [x > y ? 1 : x < y ? -1 : 0] on the names, strings being
    compared code unit by code unit. *)
Definition comparator (a b : Voice) : Z :=
  if String.ltb (name b) (name a) then 1%Z
  else if String.ltb (name a) (name b) then (-1)%Z
  else 0%Z.

(** [Array.prototype.sort] with this comparator.  The sort is stable, and
    the comparator orders the voices by name, so the outcome is the one
    arrangement that insertion from the right computes. *)
Fixpoint insert (v : Voice) (sorted : list Voice) : list Voice :=
  match sorted with
  | [] => [v]
  | w :: sorted' =>
      if (0 <? comparator v w)%Z then w :: insert v sorted' else v :: w :: sorted'
  end.

Definition sort (voices : list Voice) : list Voice :=
  fold_right insert [] voices.

(** Line 28. *)
Definition voice_of_entry (e : Entry) : Voice :=
  SpeechSynthesisVoice (Gender e) (Locale e) (Name e).

(** Lines 5-30, with [fetch] given by what it answers to a request. *)
Definition fetchVoices (fetch : Request -> Failure + Response)
    (authorizationToken : string) (deploymentId : option string) (region : string)
    : Thrown + list Voice :=
  match fetch (request authorizationToken deploymentId region) with
  | inl err => inl (Raised err)
  | inr res =>
      if negb (ok res) then inl (Error "Failed to fetch voices")
      else
        match json res with
        | inl err => inl (Raised err)
        | inr voices => inr (sort (map voice_of_entry voices))
        end
  end.

(** No voice is followed by one with a smaller name. *)
Definition in_order (a b : Voice) : Prop := String.ltb (name b) (name a) = false.

End FetchVoices.

End Voices.

(** ** Further sample inputs *)

(** Factory options with a subscription key and the misspelt
    [looseEvent]. *)
Definition with_subscription_key : Factory.Options :=
  {| Factory.audioConfig := None;
     Factory.authorizationToken := None;
     Factory.enableTelemetry := Some false;
     Factory.looseEvent := Some true;
     Factory.looseEvents := None;
     Factory.subscriptionKey := Some "0123456789abcdef" |}.

(** An audio context on which everything succeeds, and an utterance
    before [preload]. *)
Definition sound_context : Utterance.AudioContext :=
  {| Utterance.createBufferSource_fails := None;
     Utterance.decodeAudioData_settles := fun _ => Utterance.fulfilled tt;
     Utterance.playDecoded_settles := Utterance.fulfilled tt |}.

Definition fresh_utterance : Utterance.State :=
  {| Utterance.arrayBufferPromise := None; Utterance._playingSource := false |}.

(** A service that answers every request with two voices, and one that
    answers with a response that is not [ok]. *)
Definition two_voices : Voices.Request -> Failure + Voices.Response :=
  fun _ =>
    inr {| Voices.ok := true;
           Voices.json :=
             inr [ {| Voices.Gender := "Female"; Voices.Locale := "en-US";
                      Voices.Name := "Zira" |};
                   {| Voices.Gender := "Male"; Voices.Locale := "en-GB";
                      Voices.Name := "George" |} ] |}.

Definition forbidden : Voices.Request -> Failure + Voices.Response :=
  fun _ => inr {| Voices.ok := false; Voices.json := inl (Rejection "Unexpected token") |}.

(** * Properties *)

(** ** Traces *)

Lemma dispatched_app (tr1 tr2 : list Action) :
  dispatched (tr1 ++ tr2) = dispatched tr1 ++ dispatched tr2.
Proof.
  induction tr1 as [|a tr1 IH]; simpl; [reflexivity|].
  destruct (dispatched_event a); simpl; now rewrite IH.
Qed.

Lemma count_type_app (t : string) (tr1 tr2 : list Action) :
  count_type t (tr1 ++ tr2) = count_type t tr1 + count_type t tr2.
Proof.
  unfold count_type. now rewrite dispatched_app, filter_app, length_app.
Qed.

Lemma lifecycle_app (tr1 tr2 : list Action) :
  lifecycle (tr1 ++ tr2) = lifecycle tr1 ++ lifecycle tr2.
Proof.
  unfold lifecycle. now rewrite dispatched_app, filter_app.
Qed.

Lemma last_dispatched_app (tr1 tr2 : list Action) :
  last_dispatched (tr1 ++ tr2) =
  match last_dispatched tr2 with
  | Some e => Some e
  | None => last_dispatched tr1
  end.
Proof.
  unfold last_dispatched. rewrite dispatched_app, map_app.
  induction (dispatched tr2) as [|e l IH] using rev_ind.
  - now rewrite app_nil_r.
  - rewrite map_app, app_assoc. cbn [map]. now rewrite !last_last.
Qed.

Arguments test_Permission_denied s : simpl never.
Arguments test_1006 s : simpl never.

(** Events other than [canceled] carry no error text. *)
Lemma test_Permission_denied_empty : test_Permission_denied "" = false.
Proof. reflexivity. Qed.

Lemma thrown_failures_app (tr1 tr2 : list Action) :
  thrown_failures (tr1 ++ tr2) = thrown_failures tr1 ++ thrown_failures tr2.
Proof.
  induction tr1 as [|a tr1 IH]; [reflexivity|].
  destruct a as [[? ? ?|? [?|?]]| |?|?| | | |]; cbn; now rewrite ?IH.
Qed.

Lemma b2n_le_1 (b : bool) : Nat.b2n b <= 1.
Proof. destruct b; cbn; lia. Qed.

Section SessionProperties.

Variable normalize :
  RecognitionResult -> nat -> TextNormalization -> SpeechRecognitionResult.
Variable config : Config.
Variable recognizer : Recognizer.

Local Abbreviation iteration := (body normalize config recognizer).
Local Abbreviation iterate := (run_loop normalize config recognizer).
Local Abbreviation epilogue := (after_loop recognizer).
Local Abbreviation session := (session_from normalize config recognizer).
Local Abbreviation normalized r :=
  (normalize r (maxAlternatives config) (textNormalization config)).

(** Case analysis of one iteration: the event, the flags, the tests on the
    error text and the outcome of the normalizer. *)
Ltac split_tests :=
  repeat match goal with
  | |- context [test_Permission_denied ?x] => destruct (test_Permission_denied x)
  | |- context [test_1006 ?x] => destruct (test_1006 x)
  | |- context [truthy ?x] => destruct (truthy x)
  | |- context [ResultReason_beq ?x ?y] => destruct (ResultReason_beq x y)
  | |- context [alternatives ?x] => destruct (alternatives x)
  | |- context [String.eqb (transcript ?x) ?y] => destruct (String.eqb (transcript x) y)
  | |- context [continuous config] => destruct (continuous config)
  | |- context [interimResults config] => destruct (interimResults config)
  | |- context [looseEvents config] => destruct (looseEvents config)
  | |- context [stopContinuousRecognition_fails recognizer] =>
      destruct (stopContinuousRecognition_fails recognizer)
  | |- context [Nat.eqb ?n 0] => destruct (Nat.eqb n 0)
  end.

Ltac body_cases event s :=
  destruct s as [sound speech stopping_ audio final fin n muted_ armed];
  destruct event; unfold body, emitCognitiveServices, errorMessage_of,
    backfill_starts, on_recognized, on_recognizing, on_audioSourceOff;
  destruct sound, speech, audio;
  cbn; repeat (progress split_tests; cbn).

(** *** One iteration *)

Lemma body_no_end (event : SessionEvent) (s : LoopState) :
  count_type "end" (fst (iteration event s)) = 0.
Proof.
  body_cases event s; reflexivity.
Qed.

Lemma body_start_le (event : SessionEvent) (s : LoopState) :
  count_type "start" (fst (iteration event s)) <= 1.
Proof.
  body_cases event s; auto.
Qed.

Lemma body_start_later (event : SessionEvent) (s : LoopState) :
  loop s <> 0 -> count_type "start" (fst (iteration event s)) = 0.
Proof.
  intros Hloop.
  destruct s as [sound speech stopping_ audio final fin [|n] muted_ armed];
  [now elim Hloop|clear Hloop].
  destruct event; unfold body, emitCognitiveServices, errorMessage_of,
    backfill_starts, on_recognized, on_recognizing, on_audioSourceOff;
  destruct sound, speech, audio;
  cbn; repeat (progress split_tests; cbn); reflexivity.
Qed.

(** *** The loop *)

Lemma run_loop_cons (s : LoopState) (event : SessionEvent) (queue : list SessionEvent) :
  iterate s (event :: queue) =
  if negb (stopping s) || audioStarted s then
    match iteration event s with
    | (tr, Next _ s') =>
        let (tr', e) := iterate (set_loop (S (loop s')) s') queue in (tr ++ tr', e)
    | (tr, Break s') => (tr, Left s')
    | (tr, Throw err) => (tr, Thrown_in_loop err)
    end
  else ([], Left s).
Proof. reflexivity. Qed.

(** Unfolds the loop by one iteration and names the parts. *)
Ltac loop_step s event queue tr s' tr' e Hbody Hrest :=
  rewrite run_loop_cons;
  destruct (negb (stopping s) || audioStarted s); [|cbn];
  [ destruct (iteration event s) as [tr [[] s'|s'|?err]] eqn:Hbody;
    [ destruct (iterate (set_loop (S (loop s')) s') queue) as [tr' e] eqn:Hrest | | ];
    cbn [fst snd]
  | ].

Lemma run_loop_no_end (queue : list SessionEvent) (s : LoopState) :
  count_type "end" (fst (iterate s queue)) = 0.
Proof.
  revert s; induction queue as [|event queue IH]; intros s.
  - cbn. now destruct (negb (stopping s) || audioStarted s).
  - pose proof (body_no_end event s) as Hb.
    loop_step s event queue tr s' tr' e Hbody Hrest;
      rewrite ?Hbody in Hb; cbn [fst] in Hb; try assumption; try reflexivity.
    rewrite count_type_app, Hb.
    specialize (IH (set_loop (S (loop s')) s')). now rewrite Hrest in IH.
Qed.

Lemma run_loop_start_later (queue : list SessionEvent) (s : LoopState) :
  loop s <> 0 -> count_type "start" (fst (iterate s queue)) = 0.
Proof.
  revert s; induction queue as [|event queue IH]; intros s Hloop.
  - cbn. now destruct (negb (stopping s) || audioStarted s).
  - pose proof (body_start_later event s Hloop) as Hb.
    loop_step s event queue tr s' tr' e Hbody Hrest;
      rewrite ?Hbody in Hb; cbn [fst] in Hb; try assumption; try reflexivity.
    rewrite count_type_app, Hb.
    specialize (IH (set_loop (S (loop s')) s')). rewrite Hrest in IH.
    now apply IH.
Qed.

Lemma run_loop_start_le (queue : list SessionEvent) (s : LoopState) :
  count_type "start" (fst (iterate s queue)) <= 1.
Proof.
  destruct queue as [|event queue].
  - cbn. destruct (negb (stopping s) || audioStarted s); cbn; auto.
  - pose proof (body_start_le event s) as Hb.
    loop_step s event queue tr s' tr' e Hbody Hrest;
      rewrite ?Hbody in Hb; cbn [fst] in Hb; try assumption; auto.
    rewrite count_type_app.
    pose proof (run_loop_start_later queue (set_loop (S (loop s')) s')) as Hr.
    rewrite Hrest in Hr. cbn [fst] in Hr. rewrite Hr; [lia | discriminate].
Qed.

(** *** The code after the loop *)

Lemma after_loop_end (s : LoopState) :
  count_type "start" (fst (epilogue s)) = 0 /\
  count_type "end" (fst (epilogue s)) = 1 /\
  last_dispatched (fst (epilogue s)) = Some (plain "end").
Proof.
  destruct s as [sound speech stopping_ audio final fin n muted_ armed].
  unfold after_loop.
  destruct (detach_fails recognizer), (dispose_fails recognizer);
    destruct final as [[?|[|? ?]]|]; destruct sound, speech, audio; cbn; auto.
Qed.

Lemma setup_dispatches_nothing (s : LoopState) :
  dispatched (fst (setup config recognizer s)) = [].
Proof.
  unfold setup.
  destruct (createRecognizer_fails recognizer), (startContinuousRecognition_fails recognizer),
    (referenceGrammars config) as [[|? ?]|], (phrases config) as [[|? ?]|]; reflexivity.
Qed.

Lemma count_type_no_dispatch (t : string) (tr : list Action) :
  dispatched tr = [] -> count_type t tr = 0.
Proof. unfold count_type. now intros ->. Qed.

Lemma last_dispatched_no_dispatch (tr : list Action) :
  dispatched tr = [] -> last_dispatched tr = None.
Proof. unfold last_dispatched. now intros ->. Qed.

Lemma session_from_start_end (s : LoopState) (queue : list SessionEvent) :
  count_type "start" (fst (session s queue)) <= 1 /\
  count_type "end" (fst (session s queue)) <= 1 /\
  (snd (session s queue) = Resolved ->
   count_type "end" (fst (session s queue)) = 1 /\
   last_dispatched (fst (session s queue)) = Some (plain "end")).
Proof.
  unfold session_from.
  pose proof (run_loop_start_le queue s) as Hstart.
  pose proof (run_loop_no_end queue s) as Hend.
  destruct (iterate s queue) as [tr [s'|s'|err]]; cbn [fst snd] in *.
  - destruct (after_loop_end s') as (Ha & Hb & Hc).
    assert (Hall : count_type "start" (tr ++ fst (epilogue s')) <= 1 /\
                   count_type "end" (tr ++ fst (epilogue s')) = 1 /\
                   last_dispatched (tr ++ fst (epilogue s')) = Some (plain "end")).
    { rewrite !count_type_app, last_dispatched_app, Ha, Hb, Hc, Hend. repeat split; lia. }
    destruct Hall as (H1 & H2 & H3).
    destruct (epilogue s') as [tr' [[] ?|?|?]]; cbn [fst snd] in *;
      rewrite ?H2; repeat split; auto; discriminate.
  - repeat split; try lia; discriminate.
  - repeat split; try lia; discriminate.
Qed.

(** *** The start/end pairs *)

Lemma body_phase (p : Phase) (event : SessionEvent) (s : LoopState) :
  match iteration event s with
  | (tr, Next _ s') =>
      count_type (end_event p) tr = 0 /\
      started p s' = started p s || Nat.leb 1 (count_type (start_event p) tr)
  | (tr, Break s') =>
      count_type (end_event p) tr + Nat.b2n (started p s') =
      Nat.b2n (started p s || Nat.leb 1 (count_type (start_event p) tr))
  | (tr, Throw _) => count_type (end_event p) tr = 0
  end.
Proof.
  destruct p; body_cases event s; auto.
Qed.

Lemma run_loop_phase (p : Phase) (queue : list SessionEvent) (s : LoopState) :
  match iterate s queue with
  | (tr, Left s') =>
      count_type (end_event p) tr + Nat.b2n (started p s') =
      Nat.b2n (started p s || Nat.leb 1 (count_type (start_event p) tr))
  | (tr, _) => count_type (end_event p) tr = 0
  end.
Proof.
  revert s; induction queue as [|event queue IH]; intros s.
  - cbn. destruct (negb (stopping s) || audioStarted s); cbn; [reflexivity|].
    now rewrite orb_false_r.
  - pose proof (body_phase p event s) as Hb.
    loop_step s event queue tr s' tr' e Hbody Hrest; try assumption.
    + destruct Hb as [Hend Hflag].
      specialize (IH (set_loop (S (loop s')) s')). rewrite Hrest in IH.
      replace (started p (set_loop (S (loop s')) s')) with (started p s') in IH
        by now destruct p.
      rewrite !count_type_app, Hend. rewrite Hflag in IH.
      destruct e as [s''|s''|err]; [|exact IH|exact IH].
      rewrite Nat.add_0_l, IH. f_equal.
      destruct (started p s), (count_type (start_event p) tr),
        (count_type (start_event p) tr'); reflexivity.
    + now rewrite orb_false_r.
Qed.

Lemma after_loop_phase (p : Phase) (s : LoopState) :
  count_type (start_event p) (fst (epilogue s)) = 0 /\
  count_type (end_event p) (fst (epilogue s)) = Nat.b2n (started p s).
Proof.
  destruct s as [sound speech stopping_ audio final fin n muted_ armed].
  unfold after_loop.
  destruct p, (detach_fails recognizer), (dispose_fails recognizer);
    destruct final as [[?|[|? ?]]|]; destruct sound, speech, audio; cbn; auto.
Qed.

Lemma session_from_phase (p : Phase) (queue : list SessionEvent) (s : LoopState) :
  count_type (end_event p) (fst (session s queue)) <= 1 /\
  (snd (session s queue) = Resolved ->
   count_type (end_event p) (fst (session s queue)) =
   Nat.b2n (started p s || Nat.leb 1 (count_type (start_event p) (fst (session s queue))))).
Proof.
  unfold session_from.
  pose proof (run_loop_phase p queue s) as Hloop.
  destruct (iterate s queue) as [tr [s'|s'|err]]; cbn [fst snd] in *.
  - destruct (after_loop_phase p s') as [Hs He].
    assert (Hall : count_type (end_event p) (tr ++ fst (epilogue s')) =
                   Nat.b2n (started p s ||
                            Nat.leb 1 (count_type (start_event p) (tr ++ fst (epilogue s'))))).
    { rewrite !count_type_app, Hs, He, Nat.add_0_r. exact Hloop. }
    destruct (epilogue s') as [tr' [[] ?|?|?]]; cbn [fst snd] in *;
      rewrite Hall;
      (split; [apply b2n_le_1 | intros; try discriminate; reflexivity]).
  - rewrite Hloop. split; [lia|discriminate].
  - rewrite Hloop. split; [lia|discriminate].
Qed.

(** [speechstart] is only dispatched under the guard of line 548. *)
Lemma body_speechstart (event : SessionEvent) (s : LoopState) :
  count_type "speechstart" (fst (iteration event s)) + Nat.b2n (speechStarted s) <= 1.
Proof.
  body_cases event s; auto.
Qed.

Lemma run_loop_speechstart (queue : list SessionEvent) (s : LoopState) :
  count_type "speechstart" (fst (iterate s queue)) + Nat.b2n (speechStarted s) <= 1.
Proof.
  revert s; induction queue as [|event queue IH]; intros s.
  - cbn. destruct (negb (stopping s) || audioStarted s), (speechStarted s); cbn; lia.
  - pose proof (body_speechstart event s) as Hb.
    pose proof (body_phase speech event s) as Hp.
    loop_step s event queue tr s' tr' e Hbody Hrest;
      rewrite ?Hbody in Hb; cbn [fst] in Hb; try assumption.
    + destruct Hp as [_ Hflag]. cbn [started start_event] in Hflag.
      specialize (IH (set_loop (S (loop s')) s')). rewrite Hrest in IH.
      cbn [fst] in IH.
      replace (speechStarted (set_loop (S (loop s')) s')) with (speechStarted s') in IH
        by reflexivity.
      rewrite count_type_app, Hflag in *.
      destruct (speechStarted s), (count_type "speechstart" tr) as [|[|?]];
        cbn in *; lia.
    + destruct (speechStarted s); cbn; lia.
Qed.

Lemma session_from_speechstart (queue : list SessionEvent) (s : LoopState) :
  count_type "speechstart" (fst (session s queue)) + Nat.b2n (speechStarted s) <= 1.
Proof.
  unfold session_from.
  pose proof (run_loop_speechstart queue s) as Hloop.
  destruct (iterate s queue) as [tr [s'|s'|err]]; cbn [fst snd] in *; try assumption.
  destruct (after_loop_phase speech s') as [Hs _]. cbn [start_event] in Hs.
  destruct (epilogue s') as [tr' [[] ?|?|?]]; cbn [fst snd] in *;
    rewrite count_type_app, Hs; lia.
Qed.

(** The state in which the loop is entered has no flag set. *)
Lemma setup_state (s : LoopState) (tr : list Action) :
  setup config recognizer unset_state = (tr, Next tt s) -> s = initial_state.
Proof.
  unfold setup.
  destruct (createRecognizer_fails recognizer), (startContinuousRecognition_fails recognizer),
    (referenceGrammars config) as [[|? ?]|], (phrases config) as [[|? ?]|]; cbn;
    intros H; inversion H; reflexivity.
Qed.

Lemma setup_never_breaks (s : LoopState) (tr : list Action) :
  setup config recognizer unset_state <> (tr, Break s).
Proof.
  unfold setup.
  destruct (createRecognizer_fails recognizer), (startContinuousRecognition_fails recognizer),
    (referenceGrammars config) as [[|? ?]|], (phrases config) as [[|? ?]|]; discriminate.
Qed.

(** *** Failures *)

Lemma body_thrown_failures (event : SessionEvent) (s : LoopState) :
  thrown_failures (fst (iteration event s)) = [].
Proof.
  body_cases event s; try reflexivity; destruct final; reflexivity.
Qed.

Lemma run_loop_thrown_failures (queue : list SessionEvent) (s : LoopState) :
  thrown_failures (fst (iterate s queue)) = [].
Proof.
  revert s; induction queue as [|event queue IH]; intros s.
  - cbn. now destruct (negb (stopping s) || audioStarted s).
  - pose proof (body_thrown_failures event s) as Hb.
    loop_step s event queue tr s' tr' e Hbody Hrest;
      rewrite ?Hbody in Hb; cbn [fst] in Hb; try assumption; try reflexivity.
    rewrite thrown_failures_app, Hb.
    specialize (IH (set_loop (S (loop s')) s')). now rewrite Hrest in IH.
Qed.

Lemma after_loop_thrown_failures (s : LoopState) :
  thrown_failures (fst (epilogue s)) = [].
Proof.
  destruct s as [sound speech stopping_ audio final fin n muted_ armed].
  unfold after_loop.
  destruct (detach_fails recognizer), (dispose_fails recognizer);
    destruct final as [[?|[|? ?]]|]; destruct sound, speech, audio; reflexivity.
Qed.

Lemma session_from_thrown_failures (queue : list SessionEvent) (s : LoopState) :
  thrown_failures (fst (session s queue)) = [].
Proof.
  unfold session_from.
  pose proof (run_loop_thrown_failures queue s) as Hloop.
  destruct (iterate s queue) as [tr [s'|s'|err]]; cbn [fst snd] in *; try assumption.
  pose proof (after_loop_thrown_failures s') as Ha.
  destruct (epilogue s') as [tr' [[] ?|?|?]]; cbn [fst snd] in *;
    now rewrite thrown_failures_app, Hloop, Ha.
Qed.

Lemma setup_thrown_failures (s : LoopState) :
  thrown_failures (fst (setup config recognizer s)) = [].
Proof.
  unfold setup.
  destruct (createRecognizer_fails recognizer), (startContinuousRecognition_fails recognizer),
    (referenceGrammars config) as [[|? ?]|], (phrases config) as [[|? ?]|]; reflexivity.
Qed.

Lemma startOnce_thrown_failures (queue : list SessionEvent) :
  thrown_failures (fst (_startOnce normalize config recognizer queue)) = [].
Proof.
  unfold _startOnce.
  pose proof (setup_thrown_failures unset_state) as Hsetup.
  destruct (setup config recognizer unset_state) as [tr [[] s|s|err]]; cbn [fst] in *;
    try assumption.
  pose proof (session_from_thrown_failures queue s) as Hs.
  destruct (session s queue) as [tr' c]; cbn [fst] in *.
  now rewrite thrown_failures_app, Hsetup, Hs.
Qed.

(** *** Results of recognition *)

(** The loop run on a queue in two parts. *)
Lemma run_loop_app (queue1 queue2 : list SessionEvent) (s s1 : LoopState) (tr1 : list Action) :
  iterate s queue1 = (tr1, Awaiting s1) ->
  iterate s (queue1 ++ queue2) =
  (tr1 ++ fst (iterate s1 queue2), snd (iterate s1 queue2)).
Proof.
  revert s tr1; induction queue1 as [|event queue1 IH]; intros s tr1.
  - cbn [app]. unfold run_loop at 1.
    destruct (negb (stopping s) || audioStarted s); [|discriminate].
    intros H; injection H as <- <-. cbn [app]. now destruct (iterate s queue2).
  - cbn [app]. rewrite !run_loop_cons.
    destruct (negb (stopping s) || audioStarted s); [|discriminate].
    destruct (iteration event s) as [tr [[] s'|s'|err]]; try discriminate.
    destruct (iterate (set_loop (S (loop s')) s') queue1) as [tr' e] eqn:Hrest.
    intros H; injection H as <- ->.
    rewrite (IH _ _ Hrest). now rewrite app_assoc.
Qed.

(** [finalizedResults] only grows. *)
Lemma body_finalizedResults (event : SessionEvent) (s : LoopState) :
  match iteration event s with
  | (_, Next _ s') | (_, Break s') =>
      exists more, finalizedResults s' = finalizedResults s ++ more
  | (_, Throw _) => True
  end.
Proof.
  body_cases event s;
    first [ exact I | exists []; now rewrite app_nil_r | eexists; reflexivity ].
Qed.

Lemma run_loop_finalizedResults (queue : list SessionEvent) (s : LoopState) :
  match iterate s queue with
  | (_, Left s') | (_, Awaiting s') =>
      exists more, finalizedResults s' = finalizedResults s ++ more
  | (_, Thrown_in_loop _) => True
  end.
Proof.
  revert s; induction queue as [|event queue IH]; intros s.
  - cbn. destruct (negb (stopping s) || audioStarted s);
      exists []; now rewrite app_nil_r.
  - pose proof (body_finalizedResults event s) as Hb.
    rewrite run_loop_cons.
    destruct (negb (stopping s) || audioStarted s);
      [|exists []; now rewrite app_nil_r].
    destruct (iteration event s) as [tr [[] s'|s'|err]]; try assumption.
    specialize (IH (set_loop (S (loop s')) s')).
    destruct (iterate (set_loop (S (loop s')) s') queue) as [tr' [s''|s''|err]];
      try exact I;
      destruct Hb as [m1 Hb]; destruct IH as [m2 IH]; cbn in IH;
      exists (m1 ++ m2); now rewrite IH, Hb, app_assoc.
Qed.

(** A recognizable result in continuous mode (lines 565-575). *)
Lemma body_recognizable_continuous (r : RecognitionResult) (s : LoopState) :
  continuous config = true ->
  recognizable normalize config r = true ->
  exists tr s',
    iteration (recognized r) s = (tr, Next tt s') /\
    result_payloads tr = [finalizedResults s ++ [normalized r]] /\
    finalizedResults s' = finalizedResults s ++ [normalized r].
Proof.
  unfold recognizable. intros Hc Hr.
  apply andb_true_iff in Hr as [Hreason Htop]. apply negb_true_iff in Hreason.
  destruct (alternatives (normalized r)) as [|top rest] eqn:Halt; [discriminate|].
  apply negb_true_iff in Htop.
  destruct s as [sound speech stopping_ audio final fin n muted_ armed].
  unfold body, emitCognitiveServices, errorMessage_of, backfill_starts, on_recognized.
  cbn. rewrite test_Permission_denied_empty. cbn. rewrite Hreason, Halt, Htop, Hc.
  destruct n, sound, speech, audio; cbn;
    (do 2 eexists; repeat split; reflexivity).
Qed.

(** A recognizable result in single-utterance mode (lines 576-585). *)
Lemma body_recognizable_once (r : RecognitionResult) (s : LoopState) :
  continuous config = false ->
  recognizable normalize config r = true ->
  exists tr s',
    iteration (recognized r) s = (tr, Next tt s') /\
    In stopContinuousRecognitionAsync tr.
Proof.
  unfold recognizable. intros Hc Hr.
  apply andb_true_iff in Hr as [Hreason Htop]. apply negb_true_iff in Hreason.
  destruct (alternatives (normalized r)) as [|top rest] eqn:Halt; [discriminate|].
  apply negb_true_iff in Htop.
  destruct s as [sound speech stopping_ audio final fin n muted_ armed].
  unfold body, emitCognitiveServices, errorMessage_of, backfill_starts, on_recognized.
  cbn. rewrite test_Permission_denied_empty. cbn. rewrite Hreason, Halt, Htop, Hc.
  destruct (looseEvents config), n, sound, speech, audio; cbn;
    (do 2 eexists; split; [reflexivity|cbn; tauto]).
Qed.

(** An interim result (lines 593-606). *)
Lemma body_recognizing (r : RecognitionResult) (s : LoopState) :
  exists tr s',
    iteration (recognizing r) s = (tr, Next tt s') /\
    result_payloads tr =
      if interimResults config then [finalizedResults s ++ [normalized r]] else [].
Proof.
  destruct s as [sound speech stopping_ audio final fin n muted_ armed].
  unfold body, emitCognitiveServices, errorMessage_of, backfill_starts, on_recognizing.
  cbn. rewrite test_Permission_denied_empty. cbn.
  destruct (interimResults config), n, sound, speech, audio; cbn;
    (do 2 eexists; split; reflexivity).
Qed.

(** Iterations that leave the staged outcome alone. *)
Lemma body_keeps_finalEvent (event : SessionEvent) (s : LoopState) :
  keeps_finalEvent event = true ->
  match iteration event s with
  | (_, Next _ s') | (_, Break s') => finalEvent s' = finalEvent s
  | (_, Throw _) => True
  end.
Proof.
  intros Hkeep.
  destruct event; try discriminate;
    destruct s as [sound speech stopping_ audio final fin n muted_ armed];
    unfold body, emitCognitiveServices, errorMessage_of,
      backfill_starts, on_recognizing, on_audioSourceOff;
    cbn in *; rewrite ?test_Permission_denied_empty;
    try (destruct errorDetails as [[|? ?]|]; try discriminate;
         cbn; rewrite ?test_Permission_denied_empty);
    destruct n, sound, speech, audio; cbn; repeat (progress split_tests; cbn);
    reflexivity.
Qed.

Lemma run_loop_keeps_finalEvent (queue : list SessionEvent) (s : LoopState) :
  forallb keeps_finalEvent queue = true ->
  match iterate s queue with
  | (_, Left s') | (_, Awaiting s') => finalEvent s' = finalEvent s
  | (_, Thrown_in_loop _) => True
  end.
Proof.
  revert s; induction queue as [|event queue IH]; intros s Hall.
  - cbn. now destruct (negb (stopping s) || audioStarted s).
  - cbn [forallb] in Hall. apply andb_true_iff in Hall as [Hevent Hall].
    pose proof (body_keeps_finalEvent event s Hevent) as Hb.
    rewrite run_loop_cons.
    destruct (negb (stopping s) || audioStarted s); [|reflexivity].
    destruct (iteration event s) as [tr [[] s'|s'|err]]; try assumption.
    specialize (IH (set_loop (S (loop s')) s') Hall).
    destruct (iterate (set_loop (S (loop s')) s') queue) as [tr' [s''|s''|err]];
      try exact I; cbn in IH; congruence.
Qed.

(** The code after the loop with a [no-speech] outcome staged. *)
Lemma after_loop_no_speech (s : LoopState) (f : FinalEvent) :
  finalEvent s = Some f ->
  promote_empty_result f = FinalError "no-speech" ->
  dispatched (fst (after_loop recognizer s)) =
  pending_ends s ++ [ErrorEvent "error" (ErrorCode "no-speech"); plain "end"].
Proof.
  destruct s as [sound speech stopping_ audio final fin n muted_ armed].
  cbn [finalEvent]. intros -> Hf.
  unfold after_loop, pending_ends.
  destruct (detach_fails recognizer), (dispose_fails recognizer);
    destruct sound, speech, audio; cbn; rewrite Hf; reflexivity.
Qed.

(** A suspended loop satisfies its condition. *)
Lemma run_loop_awaiting (queue : list SessionEvent) (s s1 : LoopState) (tr : list Action) :
  iterate s queue = (tr, Awaiting s1) ->
  negb (stopping s1) || audioStarted s1 = true.
Proof.
  revert s tr; induction queue as [|event queue IH]; intros s tr.
  - cbn. destruct (negb (stopping s) || audioStarted s) eqn:Hcond; [|discriminate].
    intros H; injection H as _ <-. exact Hcond.
  - rewrite run_loop_cons.
    destruct (negb (stopping s) || audioStarted s); [|discriminate].
    destruct (iteration event s) as [tr0 [[] s'|s'|err]]; try discriminate.
    destruct (iterate (set_loop (S (loop s')) s') queue) as [tr' e] eqn:Hrest.
    intros H; injection H as _ ->. exact (IH _ _ Hrest).
Qed.

(** What a resolved promise tells about the run. *)
Lemma session_from_resolved (queue : list SessionEvent) (s : LoopState) :
  snd (session_from normalize config recognizer s queue) = Resolved ->
  exists tr s',
    iterate s queue = (tr, Left s') /\
    fst (session_from normalize config recognizer s queue) =
      tr ++ fst (after_loop recognizer s').
Proof.
  unfold session_from.
  destruct (iterate s queue) as [tr [s'|s'|err]]; try discriminate.
  destruct (after_loop recognizer s') as [tr' [[] ?|?|?]] eqn:Hafter; cbn [fst snd];
    try discriminate; intros _; exists tr, s'; now rewrite Hafter.
Qed.

Lemma startOnce_resolved (queue : list SessionEvent) :
  snd (_startOnce normalize config recognizer queue) = Resolved ->
  exists tr0,
    dispatched tr0 = [] /\
    fst (_startOnce normalize config recognizer queue) =
      tr0 ++ fst (session_from normalize config recognizer initial_state queue) /\
    snd (session_from normalize config recognizer initial_state queue) = Resolved.
Proof.
  unfold _startOnce.
  pose proof (setup_dispatches_nothing unset_state) as Hsetup.
  destruct (setup config recognizer unset_state) as [tr [[] s|s|err]] eqn:Hs;
    cbn [fst snd] in *.
  - apply setup_state in Hs. subst s.
    destruct (session_from normalize config recognizer initial_state queue) as [tr' c].
    cbn [fst snd]. intros ->. now exists tr.
  - now apply setup_never_breaks in Hs.
  - discriminate.
Qed.

End SessionProperties.

(** ** Leaving the loop *)

Section Leaving.

Variable normalize :
  RecognitionResult -> nat -> TextNormalization -> SpeechRecognitionResult.
Variable config : Config.
Variable recognizer : Recognizer.

Local Abbreviation iteration := (body normalize config recognizer).
Local Abbreviation iterate := (run_loop normalize config recognizer).
Local Abbreviation normalized r :=
  (normalize r (maxAlternatives config) (textNormalization config)).

Hypothesis stop_resolves : stopContinuousRecognition_fails recognizer = None.
Hypothesis some_alternative : forall r, alternatives (normalized r) <> [].

Lemma body_never_throws (event : SessionEvent) (s : LoopState) (tr : list Action)
    (err : Failure) :
  iteration event s <> (tr, Throw err).
Proof.
  destruct s as [sound speech stopping_ audio final fin n muted_ armed].
  destruct event; unfold body, emitCognitiveServices, errorMessage_of,
    backfill_starts, on_recognized, on_recognizing, on_audioSourceOff;
    rewrite ?stop_resolves;
    try (pose proof (some_alternative result) as Hsome;
         destruct (alternatives (normalized result)); [now elim Hsome|]);
    destruct sound, speech, audio; cbn;
    repeat (progress
              (repeat match goal with
               | |- context [test_Permission_denied ?x] => destruct (test_Permission_denied x)
               | |- context [test_1006 ?x] => destruct (test_1006 x)
               | |- context [truthy ?x] => destruct (truthy x)
               | |- context [ResultReason_beq ?x ?y] => destruct (ResultReason_beq x y)
               | |- context [String.eqb (transcript ?x) ?y] =>
                   destruct (String.eqb (transcript x) y)
               | |- context [continuous config] => destruct (continuous config)
               | |- context [interimResults config] => destruct (interimResults config)
               | |- context [looseEvents config] => destruct (looseEvents config)
               | |- context [Nat.eqb ?n 0] => destruct (Nat.eqb n 0)
               end); cbn);
    discriminate.
Qed.

Lemma body_leaves_loop (event : SessionEvent) (s : LoopState) :
  leaves_loop event = true ->
  exists tr s', iteration event s = (tr, Break s').
Proof.
  destruct s as [sound speech stopping_ audio final fin n muted_ armed].
  destruct event; try discriminate; cbn [leaves_loop]; intros Hleave;
    unfold body, emitCognitiveServices, errorMessage_of, on_audioSourceOff; cbn;
    rewrite ?Hleave, ?test_Permission_denied_empty; cbn.
  - destruct n, sound, speech, audio; cbn; eauto.
  - destruct (test_Permission_denied (or_empty errorDetails)); cbn; [eauto|].
    destruct n, (test_1006 (or_empty errorDetails)), audio; cbn; eauto.
Qed.

(** The loop is left once an [audioSourceOff] event, or a [canceled]
    event with an error text, is dequeued. *)
Lemma run_loop_leaves (queue : list SessionEvent) (s : LoopState) :
  existsb leaves_loop queue = true ->
  exists tr s', iterate s queue = (tr, Left s').
Proof.
  revert s; induction queue as [|event queue IH]; intros s Hex; [discriminate|].
  rewrite run_loop_cons.
  destruct (negb (stopping s) || audioStarted s); [|eauto].
  destruct (iteration event s) as [tr [[] s'|s'|err]] eqn:Hbody.
  - destruct (leaves_loop event) eqn:Hleave.
    + destruct (body_leaves_loop event s Hleave) as (? & ? & H). congruence.
    + cbn in Hex. rewrite Hleave in Hex.
      destruct (IH (set_loop (S (loop s')) s') Hex) as (tr' & s'' & ->). eauto.
  - eauto.
  - now apply body_never_throws in Hbody.
Qed.

End Leaving.

(** When every call on the recognizer succeeds and the normalizer never
    returns an empty list, a queue that delivers an [audioSourceOff] event,
    or a [canceled] event with an error text, resolves the promise of
    [_startOnce]. *)
Lemma startOnce_resolves
    (normalize : RecognitionResult -> nat -> TextNormalization -> SpeechRecognitionResult)
    (config : Config) (queue : list SessionEvent) :
  (forall r, alternatives (normalize r (maxAlternatives config) (textNormalization config)) <> []) ->
  existsb leaves_loop queue = true ->
  snd (_startOnce normalize config reliable queue) = Resolved.
Proof.
  intros Hsome Hleave.
  unfold _startOnce, setup, session_from.
  destruct (referenceGrammars config) as [[|? ?]|], (phrases config) as [[|? ?]|]; cbn;
    destruct (run_loop_leaves normalize config reliable eq_refl Hsome queue
                (set_onAudibleChunk true (set_muted false unset_state)) Hleave)
      as (tr & s' & H);
    cbn in H; rewrite H; cbn;
    destruct s' as [sound speech stopping_ audio final fin n muted_ armed];
    unfold after_loop; destruct final as [[?|[|? ?]]|], sound, speech, audio; reflexivity.
Qed.

Lemma normalizer_some_alternative (r : RecognitionResult) (n : nat) (mode : TextNormalization) :
  alternatives (cognitiveServiceEventResultToWebSpeechRecognitionResultList r (S n) mode) <> [].
Proof.
  unfold cognitiveServiceEventResultToWebSpeechRecognitionResultList. cbn.
  destruct (NBest r); discriminate.
Qed.

(** ** Claim C1: one [start] at most, and [end] *)

(** C1 (as amended).  Whatever the queue delivers, [_startOnce] dispatches
    at most one [start] and at most one [end]; when its promise resolves
    (the loop was left and the teardown went through) it has dispatched
    exactly one [end], and that is the event dispatched last.  The promise
    resolves whenever the queue delivers an [audioSourceOff] event or a
    [canceled] event with an error text, provided no call on the recognizer
    fails and the normalizer returns at least one alternative. *)
Theorem startOnce_start_and_end
    (normalize : RecognitionResult -> nat -> TextNormalization -> SpeechRecognitionResult)
    (config : Config) (recognizer : Recognizer) (queue : list SessionEvent) :
  count_type "start" (fst (_startOnce normalize config recognizer queue)) <= 1 /\
  count_type "end" (fst (_startOnce normalize config recognizer queue)) <= 1 /\
  (snd (_startOnce normalize config recognizer queue) = Resolved ->
   count_type "end" (fst (_startOnce normalize config recognizer queue)) = 1 /\
   last_dispatched (fst (_startOnce normalize config recognizer queue)) = Some (plain "end")) /\
  (recognizer = reliable ->
   (forall r, alternatives (normalize r (maxAlternatives config) (textNormalization config))
              <> []) ->
   existsb leaves_loop queue = true ->
   snd (_startOnce normalize config recognizer queue) = Resolved).
Proof.
  split; [|split; [|split]];
    [| | |intros -> Hsome Hleave; now apply startOnce_resolves];
    unfold _startOnce;
    pose proof (setup_dispatches_nothing config recognizer unset_state) as Hsetup;
    destruct (setup config recognizer unset_state) as [tr [[] s|s|err]] eqn:Hs;
    cbn [fst snd] in *;
    try (now apply setup_never_breaks in Hs);
    try (rewrite !(count_type_no_dispatch _ _ Hsetup); first [lia | discriminate]);
    pose proof (session_from_start_end normalize config recognizer s queue) as (H1 & H2 & H3);
    destruct (session_from normalize config recognizer s queue) as [tr' c]; cbn [fst snd] in *;
    rewrite ?count_type_app, ?last_dispatched_app, ?(count_type_no_dispatch _ _ Hsetup);
    try assumption.
  intros Hc. destruct (H3 Hc) as [Hend ->]. now split.
Qed.

Lemma startOnce_start_and_end_witness :
  (forall r, alternatives
               (cognitiveServiceEventResultToWebSpeechRecognitionResultList r
                  (maxAlternatives default_config) (textNormalization default_config)) <> []) /\
  existsb leaves_loop
    [audioSourceReady; firstAudibleChunk; recognized hello; audioSourceOff] = true /\
  snd (_startOnce cognitiveServiceEventResultToWebSpeechRecognitionResultList
         default_config reliable
         [audioSourceReady; firstAudibleChunk; recognized hello; audioSourceOff]) = Resolved /\
  count_type "end"
    (fst (_startOnce cognitiveServiceEventResultToWebSpeechRecognitionResultList
            default_config reliable
            [audioSourceReady; firstAudibleChunk; recognized hello; audioSourceOff])) = 1.
Proof.
  assert (Hsome : forall r, alternatives
            (cognitiveServiceEventResultToWebSpeechRecognitionResultList r
               (maxAlternatives default_config) (textNormalization default_config)) <> [])
    by (intros r; apply normalizer_some_alternative).
  destruct (startOnce_start_and_end cognitiveServiceEventResultToWebSpeechRecognitionResultList
              default_config reliable
              [audioSourceReady; firstAudibleChunk; recognized hello; audioSourceOff])
    as (_ & _ & Hend & Hresolves).
  pose proof (Hresolves eq_refl Hsome eq_refl) as Hresolved.
  split; [exact Hsome|]. split; [reflexivity|]. split; [exact Hresolved|].
  exact (proj1 (Hend Hresolved)).
Defined.

(** C1 (as stated) fails on the code.  With the queue holding only
    [audioSourceReady] the loop dispatches [start] and [audiostart] and then
    stays suspended in [queue.shift()]: no [end] is dispatched.  With the
    queue holding [abort] and the awaited [stopContinuousRecognitionAsync]
    rejecting, [_startOnce] rejects after [start]: again no [end]. *)
Lemma startOnce_without_end :
  _startOnce cognitiveServiceEventResultToWebSpeechRecognitionResultList
    default_config reliable [audioSourceReady] =
  ([createRecognizer; startContinuousRecognitionAsync;
    dispatchEvent (SpeechRecognitionEvent "cognitiveservices" (Some audioSourceReady) None);
    dispatchEvent (plain "start");
    dispatchEvent (plain "audiostart")], Pending) /\
  count_type "end"
    (fst (_startOnce cognitiveServiceEventResultToWebSpeechRecognitionResultList
            default_config reliable [audioSourceReady])) = 0 /\
  _startOnce cognitiveServiceEventResultToWebSpeechRecognitionResultList
    default_config stop_rejecting [abort] =
  ([createRecognizer; startContinuousRecognitionAsync;
    dispatchEvent (SpeechRecognitionEvent "cognitiveservices" (Some abort) None);
    dispatchEvent (plain "start");
    stopContinuousRecognitionAsync], Rejected (Rejection "Unable to contact server")).
Proof. repeat split. Qed.

(** ** Claim C2: the start/end pairs *)

(** C2 (as amended).  Whatever the queue delivers, [speechstart] is
    dispatched at most once and each of [audioend], [soundend] and
    [speechend] at most once; when the promise of [_startOnce] resolves,
    each of the three end events has been dispatched exactly once if its
    start event was dispatched, and not at all otherwise. *)
Theorem startOnce_start_end_pairs
    (normalize : RecognitionResult -> nat -> TextNormalization -> SpeechRecognitionResult)
    (config : Config) (recognizer : Recognizer) (queue : list SessionEvent) (p : Phase) :
  count_type "speechstart" (fst (_startOnce normalize config recognizer queue)) <= 1 /\
  count_type (end_event p) (fst (_startOnce normalize config recognizer queue)) <= 1 /\
  (snd (_startOnce normalize config recognizer queue) = Resolved ->
   (1 <= count_type (start_event p) (fst (_startOnce normalize config recognizer queue)) /\
    count_type (end_event p) (fst (_startOnce normalize config recognizer queue)) = 1) \/
   (count_type (start_event p) (fst (_startOnce normalize config recognizer queue)) = 0 /\
    count_type (end_event p) (fst (_startOnce normalize config recognizer queue)) = 0)).
Proof.
  unfold _startOnce.
  pose proof (setup_dispatches_nothing config recognizer unset_state) as Hsetup.
  destruct (setup config recognizer unset_state) as [tr [[] s|s|err]] eqn:Hs; cbn [fst snd] in *.
  - apply setup_state in Hs. subst s.
    pose proof (session_from_speechstart normalize config recognizer queue initial_state) as H1.
    pose proof (session_from_phase normalize config recognizer p queue initial_state) as [H2 H3].
    destruct (session_from normalize config recognizer initial_state queue) as [tr' c];
      cbn [fst snd] in *.
    rewrite !count_type_app, !(count_type_no_dispatch _ _ Hsetup). cbn [Nat.add].
    repeat split; [cbn in H1; lia | assumption |].
    intros Hc. specialize (H3 Hc).
    replace (started p initial_state) with false in H3 by now destruct p.
    cbn [orb] in H3.
    destruct (count_type (start_event p) tr') as [|n]; cbn in H3; [right|left]; split; auto; lia.
  - now apply setup_never_breaks in Hs.
  - rewrite !(count_type_no_dispatch _ _ Hsetup). repeat split; try lia; discriminate.
Qed.

Lemma startOnce_start_end_pairs_witness :
  snd (_startOnce cognitiveServiceEventResultToWebSpeechRecognitionResultList
         default_config reliable
         [audioSourceReady; firstAudibleChunk; recognized hello; audioSourceOff]) = Resolved /\
  ((1 <= count_type "soundstart"
      (fst (_startOnce cognitiveServiceEventResultToWebSpeechRecognitionResultList
              default_config reliable
              [audioSourceReady; firstAudibleChunk; recognized hello; audioSourceOff])) /\
    count_type "soundend"
      (fst (_startOnce cognitiveServiceEventResultToWebSpeechRecognitionResultList
              default_config reliable
              [audioSourceReady; firstAudibleChunk; recognized hello; audioSourceOff])) = 1) \/
   (count_type "soundstart"
      (fst (_startOnce cognitiveServiceEventResultToWebSpeechRecognitionResultList
              default_config reliable
              [audioSourceReady; firstAudibleChunk; recognized hello; audioSourceOff])) = 0 /\
    count_type "soundend"
      (fst (_startOnce cognitiveServiceEventResultToWebSpeechRecognitionResultList
              default_config reliable
              [audioSourceReady; firstAudibleChunk; recognized hello; audioSourceOff])) = 0)).
Proof.
  split; [reflexivity|].
  apply (startOnce_start_end_pairs cognitiveServiceEventResultToWebSpeechRecognitionResultList
           default_config reliable
           [audioSourceReady; firstAudibleChunk; recognized hello; audioSourceOff] sound).
  reflexivity.
Defined.

(** C2 (as stated) fails on the code.  A [recognizing] event dequeued
    before [firstAudibleChunk] dispatches [soundstart] under the guard of
    line 542, and the [firstAudibleChunk] branch of line 516 dispatches it
    again without a guard; two [audioSourceReady] events dispatch
    [audiostart] twice (line 513); and a queue that runs dry after
    [audioSourceReady] leaves [audiostart] without its [audioend]. *)
Lemma startOnce_repeats_start_events :
  map event_type (lifecycle (fst
    (_startOnce cognitiveServiceEventResultToWebSpeechRecognitionResultList
       default_config reliable
       [audioSourceReady; recognizing hello; firstAudibleChunk; audioSourceOff]))) =
  ["start"; "audiostart"; "soundstart"; "speechstart"; "soundstart";
   "speechend"; "soundend"; "audioend"; "end"] /\
  map event_type (lifecycle (fst
    (_startOnce cognitiveServiceEventResultToWebSpeechRecognitionResultList
       default_config reliable
       [audioSourceReady; audioSourceReady; audioSourceOff]))) =
  ["start"; "audiostart"; "audiostart"; "audioend"; "end"] /\
  (map event_type (lifecycle (fst
     (_startOnce cognitiveServiceEventResultToWebSpeechRecognitionResultList
        default_config reliable [audioSourceReady]))),
   snd (_startOnce cognitiveServiceEventResultToWebSpeechRecognitionResultList
          default_config reliable [audioSourceReady])) =
  (["start"; "audiostart"], Pending).
Proof. repeat split. Qed.

(** ** Claim C3: the blocked microphone *)

(** C3.  Once the recognizer is created and started, a queue that holds
    exactly one [canceled] event whose [errorDetails] matches
    [/Permission\sdenied/] makes [_startOnce] dispatch the debugging event
    for it, the [error] event with code [not-allowed], and [end]: the
    lifecycle events are [error] then [end], and there is no [start]. *)
Theorem permission_denied_gives_error_then_end
    (normalize : RecognitionResult -> nat -> TextNormalization -> SpeechRecognitionResult)
    (config : Config) (recognizer : Recognizer) (message : string) :
  createRecognizer_fails recognizer = None ->
  startContinuousRecognition_fails recognizer = None ->
  test_Permission_denied message = true ->
  dispatched (fst (_startOnce normalize config recognizer [canceled (Some message)])) =
    [SpeechRecognitionEvent "cognitiveservices" (Some (canceled (Some message))) None;
     ErrorEvent "error" (ErrorCode "not-allowed");
     plain "end"] /\
  lifecycle (fst (_startOnce normalize config recognizer [canceled (Some message)])) =
    [ErrorEvent "error" (ErrorCode "not-allowed"); plain "end"] /\
  count_type "start" (fst (_startOnce normalize config recognizer [canceled (Some message)])) = 0.
Proof.
  intros Hcreate Hstart Hmatch.
  unfold _startOnce, setup, session_from, lifecycle, count_type.
  rewrite Hcreate, Hstart.
  destruct (referenceGrammars config) as [[|? ?]|], (phrases config) as [[|? ?]|];
    cbn; unfold body; cbn; rewrite Hmatch; cbn;
    unfold after_loop; destruct (detach_fails recognizer), (dispose_fails recognizer);
    cbn; repeat split.
Qed.

Lemma permission_denied_gives_error_then_end_witness :
  createRecognizer_fails reliable = None /\
  startContinuousRecognition_fails reliable = None /\
  test_Permission_denied "Permission denied" = true /\
  lifecycle (fst (_startOnce cognitiveServiceEventResultToWebSpeechRecognitionResultList
                    default_config reliable [canceled (Some "Permission denied")])) =
    [ErrorEvent "error" (ErrorCode "not-allowed"); plain "end"].
Proof.
  split; [reflexivity|]. split; [reflexivity|]. split; [reflexivity|].
  apply (permission_denied_gives_error_then_end
           cognitiveServiceEventResultToWebSpeechRecognitionResultList
           default_config reliable "Permission denied"); reflexivity.
Defined.

(** ** Claim C4: an empty n-best list *)

(** A finalized result without alternatives stages its outcome and
    dispatches no [result] event (lines 529-533 and 563-581). *)
Lemma body_recognized_empty (config : Config) (recognizer : Recognizer)
    (r : RecognitionResult) (s : LoopState) :
  NBest r = [] ->
  exists tr s' f,
    body cognitiveServiceEventResultToWebSpeechRecognitionResultList config recognizer
      (recognized r) s = (tr, Next tt s') /\
    result_payloads tr = [] /\
    finalEvent s' = Some f /\
    (finalizedResults s = [] -> promote_empty_result f = FinalError "no-speech").
Proof.
  intros Hempty.
  destruct s as [sound speech stopping_ audio final fin n muted_ armed].
  unfold body, emitCognitiveServices, errorMessage_of, backfill_starts, on_recognized,
    cognitiveServiceEventResultToWebSpeechRecognitionResultList.
  rewrite Hempty. cbn. rewrite test_Permission_denied_empty. cbn.
  destruct (ResultReason_beq (reason r) NoMatch), (continuous config), (looseEvents config),
    n, sound, speech, audio; cbn;
    (do 3 eexists; repeat split; try reflexivity; cbn; intros ->; reflexivity).
Qed.

(** C4 (as amended).  A finalized [recognized] event with an empty
    n-best list dispatches no [result] event in its iteration.  When it is
    dequeued with no result finalized so far, and no [abort], [recognized]
    or [canceled] event with an error text is dequeued after it, a session
    whose promise resolves ends with the [error] event of code [no-speech]
    followed by [end]. *)
Theorem empty_nbest_ends_in_no_speech
    (config : Config) (recognizer : Recognizer)
    (queue1 queue2 : list SessionEvent) (r : RecognitionResult)
    (tr1 : list Action) (s : LoopState) :
  run_loop cognitiveServiceEventResultToWebSpeechRecognitionResultList config recognizer
    initial_state queue1 = (tr1, Awaiting s) ->
  finalizedResults s = [] ->
  NBest r = [] ->
  forallb keeps_finalEvent queue2 = true ->
  snd (_startOnce cognitiveServiceEventResultToWebSpeechRecognitionResultList config recognizer
         (queue1 ++ recognized r :: queue2)) = Resolved ->
  result_payloads
    (fst (body cognitiveServiceEventResultToWebSpeechRecognitionResultList config recognizer
            (recognized r) s)) = [] /\
  exists before,
    dispatched
      (fst (_startOnce cognitiveServiceEventResultToWebSpeechRecognitionResultList config
              recognizer (queue1 ++ recognized r :: queue2))) =
    before ++ [ErrorEvent "error" (ErrorCode "no-speech"); plain "end"].
Proof.
  intros Hrun Hfin Hempty Hkeep Hresolved.
  destruct (body_recognized_empty config recognizer r s Hempty)
    as (trb & s' & f & Hbody & Hpay & Hfinal & Hpromote).
  split; [now rewrite Hbody|].
  apply startOnce_resolved in Hresolved as (tr0 & Hsetup & -> & Hresolved).
  apply session_from_resolved in Hresolved as (tr & s'' & Hloop & ->).
  rewrite (run_loop_app _ _ _ _ _ _ _ _ Hrun) in Hloop.
  rewrite run_loop_cons, (run_loop_awaiting _ _ _ _ _ _ _ Hrun), Hbody in Hloop.
  pose proof (run_loop_keeps_finalEvent
                cognitiveServiceEventResultToWebSpeechRecognitionResultList config recognizer
                queue2 (set_loop (S (loop s')) s') Hkeep) as Hsame.
  destruct (run_loop cognitiveServiceEventResultToWebSpeechRecognitionResultList config
              recognizer (set_loop (S (loop s')) s') queue2) as [tr' e].
  cbn [fst snd] in Hloop. injection Hloop as <- ->.
  cbn in Hsame. rewrite Hfinal in Hsame.
  rewrite !dispatched_app, Hsetup.
  rewrite (after_loop_no_speech recognizer s'' f Hsame (Hpromote Hfin)).
  eexists. cbn [app]. rewrite !app_assoc. reflexivity.
Qed.

Lemma empty_nbest_ends_in_no_speech_witness :
  run_loop cognitiveServiceEventResultToWebSpeechRecognitionResultList default_config reliable
    initial_state [audioSourceReady] =
    ([dispatchEvent (SpeechRecognitionEvent "cognitiveservices" (Some audioSourceReady) None);
      dispatchEvent (plain "start"); dispatchEvent (plain "audiostart")],
     Awaiting (set_loop 1 (set_audioStarted true initial_state))) /\
  finalizedResults (set_loop 1 (set_audioStarted true initial_state)) = [] /\
  NBest silence = [] /\
  forallb keeps_finalEvent [audioSourceOff] = true /\
  snd (_startOnce cognitiveServiceEventResultToWebSpeechRecognitionResultList default_config
         reliable ([audioSourceReady] ++ recognized silence :: [audioSourceOff])) = Resolved /\
  exists before,
    dispatched
      (fst (_startOnce cognitiveServiceEventResultToWebSpeechRecognitionResultList default_config
              reliable ([audioSourceReady] ++ recognized silence :: [audioSourceOff]))) =
    before ++ [ErrorEvent "error" (ErrorCode "no-speech"); plain "end"].
Proof.
  split; [reflexivity|]. split; [reflexivity|]. split; [reflexivity|].
  split; [reflexivity|]. split; [reflexivity|].
  apply (empty_nbest_ends_in_no_speech default_config reliable
           [audioSourceReady] [audioSourceOff] silence _ _ eq_refl eq_refl eq_refl eq_refl eq_refl).
Defined.

(** C4 (as stated) fails on the code.  After a recognizable result, a
    finalized result with an empty n-best list stages the [result] event
    again with the results finalized so far (line 577): the session ends
    with that [result] event and dispatches no [error]. *)
Lemma empty_nbest_after_a_result_ends_in_result :
  NBest silence = [] /\
  lifecycle (fst
    (_startOnce cognitiveServiceEventResultToWebSpeechRecognitionResultList
       default_config reliable
       [audioSourceReady; firstAudibleChunk; recognized hello; recognized silence;
        audioSourceOff])) =
  [plain "start"; plain "audiostart"; plain "soundstart"; plain "speechstart";
   plain "speechend"; plain "soundend"; plain "audioend";
   SpeechRecognitionEvent "result" None
     (Some [cognitiveServiceEventResultToWebSpeechRecognitionResultList hello 1 display]);
   plain "end"] /\
  count_type "error" (fst
    (_startOnce cognitiveServiceEventResultToWebSpeechRecognitionResultList
       default_config reliable
       [audioSourceReady; firstAudibleChunk; recognized hello; recognized silence;
        audioSourceOff])) = 0.
Proof. repeat split. Qed.

(** ** Claim C5: single-utterance mode *)

(** C5 (as amended).  When [continuous] is false, a [recognized] event
    with a top alternative of non-empty transcript makes the loop call
    [stopContinuousRecognitionAsync]; a [recognizing] event dequeued at any
    time dispatches a [result] event exactly when [interimResults] is set,
    so none does when [interimResults] is false. *)
Theorem single_utterance_stops_recognition
    (normalize : RecognitionResult -> nat -> TextNormalization -> SpeechRecognitionResult)
    (config : Config) (recognizer : Recognizer) :
  continuous config = false ->
  (forall (r : RecognitionResult) (s : LoopState),
     recognizable normalize config r = true ->
     exists tr s',
       body normalize config recognizer (recognized r) s = (tr, Next tt s') /\
       In stopContinuousRecognitionAsync tr) /\
  (forall (r : RecognitionResult) (s : LoopState),
     exists tr s',
       body normalize config recognizer (recognizing r) s = (tr, Next tt s') /\
       result_payloads tr =
         if interimResults config
         then [finalizedResults s ++
               [normalize r (maxAlternatives config) (textNormalization config)]]
         else []).
Proof.
  intros Hc. split.
  - intros r s Hr. now apply body_recognizable_once.
  - intros r s. apply body_recognizing.
Qed.

Lemma single_utterance_stops_recognition_witness :
  continuous default_config = false /\
  forall (r : RecognitionResult) (s : LoopState),
    exists tr s',
      body cognitiveServiceEventResultToWebSpeechRecognitionResultList default_config reliable
        (recognizing r) s = (tr, Next tt s') /\
      result_payloads tr = [].
Proof.
  split; [reflexivity|].
  apply (single_utterance_stops_recognition
           cognitiveServiceEventResultToWebSpeechRecognitionResultList
           default_config reliable eq_refl).
Defined.

(** C5 (as stated) fails on the code.  With [interimResults] set, a
    [recognizing] event dequeued after the [recognized] one, when
    [stopContinuousRecognitionAsync] has been called, dispatches a [result]
    event. *)
Lemma recognizing_after_recognized_dispatches_result :
  continuous interim_config = false /\
  _startOnce cognitiveServiceEventResultToWebSpeechRecognitionResultList
    interim_config reliable [recognized hello; recognizing world] =
  ([createRecognizer; startContinuousRecognitionAsync;
    dispatchEvent (SpeechRecognitionEvent "cognitiveservices" (Some (recognized hello)) None);
    dispatchEvent (plain "start");
    dispatchEvent (plain "audiostart");
    dispatchEvent (plain "soundstart");
    dispatchEvent (plain "speechstart");
    stopContinuousRecognitionAsync;
    dispatchEvent (SpeechRecognitionEvent "cognitiveservices" (Some (recognizing world)) None);
    dispatchEvent
      (SpeechRecognitionEvent "result" None
         (Some [cognitiveServiceEventResultToWebSpeechRecognitionResultList hello 1 display;
                cognitiveServiceEventResultToWebSpeechRecognitionResultList world 1 display]))],
   Pending).
Proof. split; reflexivity. Qed.

(** ** Claim C6: cumulative results in continuous mode *)

(** C6.  In continuous mode a [recognized] event that reaches line 554
    with a top alternative of non-empty transcript dispatches, in its own
    iteration, one [result] event whose [results] are the finalized results
    with the new one appended, which is also the new value of
    [finalizedResults]; and the next such event of the session, whatever is
    dequeued in between, dispatches [results] that are at least as long. *)
Theorem continuous_results_are_cumulative
    (normalize : RecognitionResult -> nat -> TextNormalization -> SpeechRecognitionResult)
    (config : Config) (recognizer : Recognizer)
    (r1 : RecognitionResult) (s1 : LoopState) :
  continuous config = true ->
  recognizable normalize config r1 = true ->
  exists tr1 s1',
    body normalize config recognizer (recognized r1) s1 = (tr1, Next tt s1') /\
    result_payloads tr1 =
      [finalizedResults s1 ++ [normalize r1 (maxAlternatives config) (textNormalization config)]] /\
    finalizedResults s1' =
      finalizedResults s1 ++ [normalize r1 (maxAlternatives config) (textNormalization config)] /\
    forall (queue : list SessionEvent) (tr : list Action) (s2 : LoopState)
           (r2 : RecognitionResult),
      run_loop normalize config recognizer (set_loop (S (loop s1')) s1') queue
        = (tr, Awaiting s2) ->
      recognizable normalize config r2 = true ->
      exists tr2 s2',
        body normalize config recognizer (recognized r2) s2 = (tr2, Next tt s2') /\
        result_payloads tr2 =
          [finalizedResults s2 ++ [normalize r2 (maxAlternatives config) (textNormalization config)]] /\
        List.length (finalizedResults s1 ++
                     [normalize r1 (maxAlternatives config) (textNormalization config)])
        <= List.length (finalizedResults s2 ++
                        [normalize r2 (maxAlternatives config) (textNormalization config)]).
Proof.
  intros Hc Hr1.
  destruct (body_recognizable_continuous normalize config recognizer r1 s1 Hc Hr1)
    as (tr1 & s1' & Hbody & Hpay & Hfin).
  exists tr1, s1'. repeat split; try assumption.
  intros queue tr s2 r2 Hrun Hr2.
  destruct (body_recognizable_continuous normalize config recognizer r2 s2 Hc Hr2)
    as (tr2 & s2' & Hbody2 & Hpay2 & _).
  exists tr2, s2'. repeat split; try assumption.
  pose proof (run_loop_finalizedResults normalize config recognizer queue
                (set_loop (S (loop s1')) s1')) as Hgrow.
  rewrite Hrun in Hgrow. destruct Hgrow as [more Hgrow]. cbn in Hgrow.
  rewrite Hgrow, Hfin, !length_app. cbn. lia.
Qed.

Lemma continuous_results_are_cumulative_witness :
  continuous continuous_config = true /\
  recognizable cognitiveServiceEventResultToWebSpeechRecognitionResultList
    continuous_config hello = true /\
  exists tr1 s1',
    body cognitiveServiceEventResultToWebSpeechRecognitionResultList continuous_config reliable
      (recognized hello) initial_state = (tr1, Next tt s1') /\
    result_payloads tr1 =
      [[cognitiveServiceEventResultToWebSpeechRecognitionResultList hello 1 display]].
Proof.
  split; [reflexivity|]. split; [reflexivity|].
  destruct (continuous_results_are_cumulative
              cognitiveServiceEventResultToWebSpeechRecognitionResultList
              continuous_config reliable hello initial_state eq_refl eq_refl)
    as (tr1 & s1' & Hbody & Hpay & _).
  exists tr1, s1'. split; [exact Hbody | exact Hpay].
Defined.

(** ** Claim C7: reads while muted *)

Lemma Int16Array_even (arrayBuffer : list byte) :
  (Nat.even (List.length arrayBuffer) = true -> Int16Array arrayBuffer <> None) /\
  (forall b : byte, Nat.even (List.length (b :: arrayBuffer)) = true ->
                    Int16Array (b :: arrayBuffer) <> None).
Proof.
  induction arrayBuffer as [|hi rest [IH1 IH2]]; split.
  - discriminate.
  - discriminate.
  - exact (IH2 hi).
  - intros lo Heven. cbn [Int16Array].
    destruct (Int16Array rest) eqn:E; [discriminate|].
    now elim IH1.
Qed.

(** C7 (as amended).  A dequeued [stop] sets [muted]; and every read
    performed while [muted] is set, of a chunk whose buffer has an even
    number of bytes, returns the zero-length chunk with [isEnd] set,
    whatever the chunk holds, and leaves [muted] set. *)
Theorem muted_read_returns_end_chunk
    (normalize : RecognitionResult -> nat -> TextNormalization -> SpeechRecognitionResult)
    (config : Config) (recognizer : Recognizer) :
  (forall s : LoopState,
     exists tr s', body normalize config recognizer stop s = (tr, Next tt s') /\
                   muted s' = true) /\
  (forall (now : Z) (chunk : Chunk) (s : LoopState),
     muted s = true ->
     Nat.even (List.length (buffer chunk)) = true ->
     exists pushed s',
       read_improviser now chunk s =
         (pushed, s', inr {| buffer := []; isEnd := true; timeReceived := now |}) /\
       muted s' = true).
Proof.
  split.
  - intros s. unfold body. cbn. rewrite test_Permission_denied_empty. cbn.
    destruct (loop s =? 0)%nat; cbn; (do 2 eexists; split; reflexivity).
  - intros now chunk s Hmuted Heven.
    unfold read_improviser, averageAmplitude.
    destruct (Int16Array (buffer chunk)) as [array|] eqn:E;
      [|now apply (proj1 (Int16Array_even (buffer chunk))) in Heven].
    destruct (greater_than _ 150 && onAudibleChunk s); cbn; rewrite Hmuted;
      (do 2 eexists; split; [reflexivity|assumption]).
Qed.

Lemma muted_read_returns_end_chunk_witness :
  muted muted_state = true /\
  Nat.even (List.length (buffer loud_chunk)) = true /\
  exists pushed s',
    read_improviser 7 loud_chunk muted_state =
      (pushed, s', inr {| buffer := []; isEnd := true; timeReceived := 7 |}) /\
    muted s' = true.
Proof.
  split; [reflexivity|]. split; [reflexivity|].
  apply (proj2 (muted_read_returns_end_chunk
                  cognitiveServiceEventResultToWebSpeechRecognitionResultList
                  default_config reliable)); reflexivity.
Defined.

(** C7 (as stated) fails on the code.  The amplitude is computed before
    [muted] is looked at, and [new Int16Array] throws on a buffer with an
    odd number of bytes: the read of a one-byte chunk while [muted] is set
    raises a [RangeError] instead of returning the end-marked chunk. *)
Lemma muted_read_of_odd_chunk_throws :
  muted muted_state = true /\
  read_improviser 7 odd_chunk muted_state =
    ([], muted_state, inl (RangeError "byte length of Int16Array should be a multiple of 2")).
Proof. split; reflexivity. Qed.

(** ** Claim C8: [start] catches every failure *)

(** C8.  [start] always returns to its caller; when [_startOnce] rejects
    with a failure, raised in the setup, in the loop or in the teardown,
    [start] dispatches after everything else one [error] event carrying
    that failure, and no other dispatched event carries a failure. *)
Theorem start_dispatches_the_failure
    (normalize : RecognitionResult -> nat -> TextNormalization -> SpeechRecognitionResult)
    (config : Config) (recognizer : Recognizer) (queue : list SessionEvent) :
  snd (start normalize config recognizer queue) = Returns /\
  forall err : Failure,
    snd (_startOnce normalize config recognizer queue) = Rejected err ->
    fst (start normalize config recognizer queue) =
      fst (_startOnce normalize config recognizer queue) ++
      [dispatchEvent (ErrorEvent "error" (Thrown err))] /\
    thrown_failures (fst (start normalize config recognizer queue)) = [err].
Proof.
  unfold start.
  pose proof (startOnce_thrown_failures normalize config recognizer queue) as Hnone.
  destruct (_startOnce normalize config recognizer queue) as [tr [| |err']];
    cbn [fst snd] in *; (split; [reflexivity|]); intros err Herr; try discriminate.
  injection Herr as ->. split; [reflexivity|].
  now rewrite thrown_failures_app, Hnone.
Qed.

Lemma start_dispatches_the_failure_witness :
  snd (_startOnce cognitiveServiceEventResultToWebSpeechRecognitionResultList
         default_config stop_rejecting [abort]) =
    Rejected (Rejection "Unable to contact server") /\
  thrown_failures
    (fst (start cognitiveServiceEventResultToWebSpeechRecognitionResultList
            default_config stop_rejecting [abort])) =
    [Rejection "Unable to contact server"].
Proof.
  split; [reflexivity|].
  apply (start_dispatches_the_failure cognitiveServiceEventResultToWebSpeechRecognitionResultList
           default_config stop_rejecting [abort]).
  reflexivity.
Defined.

(** ** Claim C9: an audible chunk while muted *)

(** C9.  The amplitude is inspected before [muted] is: a chunk read while
    [muted] is set, whose average amplitude exceeds 150, with the callback
    still armed, pushes [firstAudibleChunk] on the queue and disarms the
    callback, while the caller receives the zero-length end-marked chunk;
    and a dequeued [firstAudibleChunk] dispatches [soundstart]. *)
Theorem audible_chunk_is_reported_while_muted
    (normalize : RecognitionResult -> nat -> TextNormalization -> SpeechRecognitionResult)
    (config : Config) (recognizer : Recognizer)
    (now : Z) (chunk : Chunk) (s : LoopState) (amplitude : Number) :
  muted s = true ->
  onAudibleChunk s = true ->
  averageAmplitude (buffer chunk) = inr amplitude ->
  greater_than amplitude 150 = true ->
  read_improviser now chunk s =
    ([firstAudibleChunk], set_onAudibleChunk false s,
     inr {| buffer := []; isEnd := true; timeReceived := now |}) /\
  forall s' : LoopState,
    count_type "soundstart" (fst (body normalize config recognizer firstAudibleChunk s')) = 1.
Proof.
  intros Hmuted Harmed Hamp Hloud. split.
  - unfold read_improviser. rewrite Hamp, Hloud, Harmed. cbn. now rewrite Hmuted.
  - intros s'. unfold body. cbn. rewrite test_Permission_denied_empty. cbn.
    now destruct (loop s' =? 0)%nat.
Qed.

Lemma audible_chunk_is_reported_while_muted_witness :
  muted muted_state = true /\
  onAudibleChunk muted_state = true /\
  averageAmplitude (buffer loud_chunk) = inr (Finite (300 # 1)) /\
  greater_than (Finite (300 # 1)) 150 = true /\
  read_improviser 7 loud_chunk muted_state =
    ([firstAudibleChunk], set_onAudibleChunk false muted_state,
     inr {| buffer := []; isEnd := true; timeReceived := 7 |}).
Proof.
  split; [reflexivity|]. split; [reflexivity|]. split; [reflexivity|]. split; [reflexivity|].
  apply (audible_chunk_is_reported_while_muted
           cognitiveServiceEventResultToWebSpeechRecognitionResultList
           default_config reliable 7 loud_chunk muted_state (Finite (300 # 1)));
    reflexivity.
Defined.

(** ** Claim C10: the factory guard *)

(** Where line 241 can read [window.navigator]: without a truthy
    [authorizationToken] and a truthy [subscriptionKey], whatever the
    environment, or with credentials and a [navigator] without
    [mediaDevices.getUserMedia], the factory returns the empty object, and
    its only effect is one console warning. *)
Theorem factory_returns_empty_object (window : option Factory.Window) (o : Factory.Options) :
  (Factory.token_truthy (Factory.authorizationToken o) = false /\
   truthy (Factory.subscriptionKey o) = false) \/
  (exists n, Factory.window_navigator window = inr n /\ Factory.has_getUserMedia n = false) ->
  exists message : string,
    Factory.createSpeechRecognitionPonyfill window o =
      ([Factory.console_warn message], inr Factory.EmptyObject).
Proof.
  unfold Factory.createSpeechRecognitionPonyfill.
  intros [[Htoken Hkey]|(n & Hnavigator & Hmedia)].
  - rewrite Htoken, Hkey. cbn. eauto.
  - rewrite Hnavigator, Hmedia.
    destruct (negb _ && negb _); cbn; eauto.
Qed.

Lemma factory_returns_empty_object_witness :
  ((Factory.token_truthy (Factory.authorizationToken no_credentials) = false /\
    truthy (Factory.subscriptionKey no_credentials) = false) \/
   (exists n, Factory.window_navigator None = inr n /\ Factory.has_getUserMedia n = false)) /\
  exists message : string,
    Factory.createSpeechRecognitionPonyfill None no_credentials =
      ([Factory.console_warn message], inr Factory.EmptyObject).
Proof.
  split; [left; split; reflexivity|].
  apply (factory_returns_empty_object None no_credentials).
  left; split; reflexivity.
Defined.

(** C10.  With a subscription key and no [window] (Node.js, a worker),
    which is an environment without [getUserMedia], the factory does not
    return the empty object: line 241 reads [window.navigator] unguarded
    and throws a [ReferenceError], and no warning is logged. *)
Theorem factory_throws_without_window :
  truthy (Factory.subscriptionKey subscription_key_only) = true /\
  Factory.supports_getUserMedia None = false /\
  Factory.createSpeechRecognitionPonyfill None subscription_key_only =
    ([], inl (ReferenceError "window is not defined")).
Proof.
  split; [reflexivity|].
  split; reflexivity.
Qed.

(** * Further properties of the session *)


Lemma error_codes_app (tr1 tr2 : list Action) :
  error_codes (tr1 ++ tr2) = error_codes tr1 ++ error_codes tr2.
Proof.
  induction tr1 as [|a tr1 IH]; [reflexivity|].
  destruct a as [[? ? ?|? [?|?]]| |?|?| | | |]; cbn; now rewrite ?IH.
Qed.

Section SessionTraces.

Variable normalize :
  RecognitionResult -> nat -> TextNormalization -> SpeechRecognitionResult.
Variable config : Config.
Variable recognizer : Recognizer.

Local Abbreviation iteration := (body normalize config recognizer).
Local Abbreviation iterate := (run_loop normalize config recognizer).
Local Abbreviation epilogue := (after_loop recognizer).
Local Abbreviation session := (session_from normalize config recognizer).

Ltac split_tests :=
  repeat match goal with
  | |- context [test_Permission_denied ?x] => destruct (test_Permission_denied x)
  | |- context [test_1006 ?x] => destruct (test_1006 x)
  | |- context [truthy ?x] => destruct (truthy x)
  | |- context [ResultReason_beq ?x ?y] => destruct (ResultReason_beq x y)
  | |- context [alternatives ?x] => destruct (alternatives x)
  | |- context [String.eqb (transcript ?x) ?y] => destruct (String.eqb (transcript x) y)
  | |- context [continuous config] => destruct (continuous config)
  | |- context [interimResults config] => destruct (interimResults config)
  | |- context [looseEvents config] => destruct (looseEvents config)
  | |- context [stopContinuousRecognition_fails recognizer] =>
      destruct (stopContinuousRecognition_fails recognizer)
  | |- context [Nat.eqb ?n 0] => destruct (Nat.eqb n 0)
  end.

Ltac body_cases event s :=
  destruct s as [sound speech stopping_ audio final fin n muted_ armed];
  destruct event; unfold body, emitCognitiveServices, errorMessage_of,
    backfill_starts, on_recognized, on_recognizing, on_audioSourceOff;
  destruct sound, speech, audio;
  cbn; repeat (progress split_tests; cbn).

Ltac setup_cases :=
  unfold setup;
  destruct (createRecognizer_fails recognizer), (startContinuousRecognition_fails recognizer),
    (referenceGrammars config) as [[|? ?]|], (phrases config) as [[|? ?]|].

Ltac after_loop_cases s :=
  destruct s as [sound speech stopping_ audio final fin n muted_ armed];
  unfold after_loop;
  destruct (detach_fails recognizer), (dispose_fails recognizer);
  destruct final as [[?|[|? ?]]|]; destruct sound, speech, audio.

(** *** The debugging events *)






(** *** The error events *)

Lemma body_error_codes (event : SessionEvent) (s : LoopState) :
  staged_in_taxonomy s ->
  error_codes (fst (iteration event s)) = [] /\
  match snd (iteration event s) with
  | Next _ s' | Break s' => staged_in_taxonomy s'
  | Throw _ => True
  end.
Proof.
  unfold staged_in_taxonomy, taxonomy. intros Hs.
  body_cases event s; cbn in *; (split; [reflexivity|]); cbn; tauto.
Qed.

Lemma run_loop_error_codes (queue : list SessionEvent) (s : LoopState) :
  staged_in_taxonomy s ->
  error_codes (fst (iterate s queue)) = [] /\
  match snd (iterate s queue) with
  | Left s' | Awaiting s' => staged_in_taxonomy s'
  | Thrown_in_loop _ => True
  end.
Proof.
  revert s; induction queue as [|event queue IH]; intros s Hs.
  - cbn. now destruct (negb (stopping s) || audioStarted s).
  - destruct (body_error_codes event s Hs) as [Hb Hstaged].
    rewrite run_loop_cons.
    destruct (negb (stopping s) || audioStarted s); [|now split].
    destruct (iteration event s) as [tr [[] s'|s'|err]]; cbn [fst snd] in *; try now split.
    destruct (IH (set_loop (S (loop s')) s') Hstaged) as [Hr Hstaged'].
    destruct (iterate (set_loop (S (loop s')) s') queue) as [tr' e]; cbn [fst snd] in *.
    now rewrite error_codes_app, Hb, Hr.
Qed.

Lemma after_loop_error_codes (s : LoopState) :
  staged_in_taxonomy s ->
  error_codes (fst (epilogue s)) = [] \/
  exists code, In code taxonomy /\ error_codes (fst (epilogue s)) = [code].
Proof.
  unfold staged_in_taxonomy, taxonomy. intros Hs.
  after_loop_cases s; cbn in *;
    first [ left; reflexivity | right; eexists; split; [|reflexivity]; cbn; tauto ].
Qed.

Lemma setup_error_codes (s : LoopState) :
  error_codes (fst (setup config recognizer s)) = [].
Proof. setup_cases; reflexivity. Qed.

(** *** The first lifecycle event *)

Lemma body_start_first (event : SessionEvent) (s : LoopState) :
  loop s = 0 ->
  test_Permission_denied (or_empty (errorMessage_of event)) = false ->
  hd_error (lifecycle (fst (iteration event s))) = Some (plain "start").
Proof.
  destruct s as [sound speech stopping_ audio final fin n muted_ armed].
  cbn [loop]. intros -> Hpermitted.
  destruct event; unfold body, emitCognitiveServices;
    rewrite Hpermitted; unfold errorMessage_of,
      backfill_starts, on_recognized, on_recognizing, on_audioSourceOff;
    destruct sound, speech, audio;
    cbn; repeat (progress split_tests; cbn); reflexivity.
Qed.

Lemma setup_succeeds :
  createRecognizer_fails recognizer = None ->
  startContinuousRecognition_fails recognizer = None ->
  exists tr,
    setup config recognizer unset_state = (tr, Next tt initial_state) /\
    dispatched tr = [].
Proof.
  intros Hcreate Hstart. unfold setup. rewrite Hcreate, Hstart.
  destruct (referenceGrammars config) as [[|? ?]|], (phrases config) as [[|? ?]|];
    eexists; split; reflexivity.
Qed.

Lemma lifecycle_no_dispatch (tr : list Action) :
  dispatched tr = [] -> lifecycle tr = [].
Proof. unfold lifecycle. now intros ->. Qed.

(** *** Results and errors *)

Lemma body_no_error_event (event : SessionEvent) (s : LoopState) :
  count_type "error" (fst (iteration event s)) = 0.
Proof.
  body_cases event s; try reflexivity; destruct final; reflexivity.
Qed.

Lemma run_loop_no_error_event (queue : list SessionEvent) (s : LoopState) :
  count_type "error" (fst (iterate s queue)) = 0.
Proof.
  revert s; induction queue as [|event queue IH]; intros s.
  - cbn. now destruct (negb (stopping s) || audioStarted s).
  - pose proof (body_no_error_event event s) as Hb.
    rewrite run_loop_cons.
    destruct (negb (stopping s) || audioStarted s); [|reflexivity].
    destruct (iteration event s) as [tr [[] s'|s'|err]]; cbn [fst] in *; try assumption.
    specialize (IH (set_loop (S (loop s')) s')).
    destruct (iterate (set_loop (S (loop s')) s') queue) as [tr' e]; cbn [fst] in *.
    now rewrite count_type_app, Hb, IH.
Qed.

Lemma after_loop_one_outcome (s : LoopState) :
  count_type "result" (fst (epilogue s)) + count_type "error" (fst (epilogue s)) <= 1.
Proof. after_loop_cases s; cbn; lia. Qed.

Section Strict.

Hypothesis one_utterance : continuous config = false.
Hypothesis no_interim : interimResults config = false.
Hypothesis strict_order : looseEvents config = false.

Lemma body_strict_no_result (event : SessionEvent) (s : LoopState) :
  count_type "result" (fst (iteration event s)) = 0.
Proof.
  destruct s as [sound speech stopping_ audio final fin n muted_ armed];
  destruct event; unfold body, emitCognitiveServices, errorMessage_of,
    backfill_starts, on_recognized, on_recognizing, on_audioSourceOff;
  rewrite ?one_utterance, ?no_interim, ?strict_order;
  destruct sound, speech, audio;
  cbn; repeat (progress split_tests; cbn); reflexivity.
Qed.

Lemma run_loop_strict_no_result (queue : list SessionEvent) (s : LoopState) :
  count_type "result" (fst (iterate s queue)) = 0.
Proof.
  revert s; induction queue as [|event queue IH]; intros s.
  - cbn. now destruct (negb (stopping s) || audioStarted s).
  - pose proof (body_strict_no_result event s) as Hb.
    rewrite run_loop_cons.
    destruct (negb (stopping s) || audioStarted s); [|reflexivity].
    destruct (iteration event s) as [tr [[] s'|s'|err]]; cbn [fst] in *; try assumption.
    specialize (IH (set_loop (S (loop s')) s')).
    destruct (iterate (set_loop (S (loop s')) s') queue) as [tr' e]; cbn [fst] in *.
    now rewrite count_type_app, Hb, IH.
Qed.

Lemma session_from_strict (queue : list SessionEvent) (s : LoopState) :
  count_type "result" (fst (session s queue)) +
  count_type "error" (fst (session s queue)) <= 1.
Proof.
  unfold session_from.
  pose proof (run_loop_strict_no_result queue s) as Hr.
  pose proof (run_loop_no_error_event queue s) as He.
  destruct (iterate s queue) as [tr [s'|s'|err]]; cbn [fst snd] in *; try lia.
  pose proof (after_loop_one_outcome s') as Ha.
  destruct (epilogue s') as [tr' [[] ?|?|?]]; cbn [fst snd] in *;
    rewrite !count_type_app; lia.
Qed.

End Strict.

(** *** Speech implies sound and audio *)

Lemma body_speechstart_flags (event : SessionEvent) (s : LoopState) :
  1 <= count_type "speechstart" (fst (iteration event s)) ->
  audioStarted s || Nat.leb 1 (count_type "audiostart" (fst (iteration event s))) = true /\
  soundStarted s || Nat.leb 1 (count_type "soundstart" (fst (iteration event s))) = true.
Proof.
  body_cases event s; cbn;
    first [ intros H; exfalso; lia | intros _; split; reflexivity ].
Qed.

Lemma run_loop_speechstart_flags (queue : list SessionEvent) (s : LoopState) :
  1 <= count_type "speechstart" (fst (iterate s queue)) ->
  audioStarted s || Nat.leb 1 (count_type "audiostart" (fst (iterate s queue))) = true /\
  soundStarted s || Nat.leb 1 (count_type "soundstart" (fst (iterate s queue))) = true.
Proof.
  revert s; induction queue as [|event queue IH]; intros s.
  - cbn. destruct (negb (stopping s) || audioStarted s); cbn; lia.
  - pose proof (body_speechstart_flags event s) as Hb.
    pose proof (body_phase normalize config recognizer audio event s) as Haudio.
    pose proof (body_phase normalize config recognizer sound event s) as Hsound.
    rewrite run_loop_cons.
    destruct (negb (stopping s) || audioStarted s); [|cbn; lia].
    destruct (iteration event s) as [tr [[] s'|s'|err]]; cbn [fst snd] in *;
      try assumption.
    destruct Haudio as [_ Haudio]. destruct Hsound as [_ Hsound].
    cbn [started start_event] in Haudio, Hsound.
    specialize (IH (set_loop (S (loop s')) s')).
    destruct (iterate (set_loop (S (loop s')) s') queue) as [tr' e]; cbn [fst snd] in *.
    rewrite !count_type_app. intros Hcount.
    assert (Hcases : 1 <= count_type "speechstart" tr \/
                     1 <= count_type "speechstart" tr') by lia.
    destruct Hcases as [H|H].
    + destruct (Hb H) as [Ha Hs].
      destruct (audioStarted s), (soundStarted s),
        (count_type "audiostart" tr), (count_type "soundstart" tr);
        cbn in *; try discriminate; auto.
    + destruct (IH H) as [Ia Is]. cbn [audioStarted soundStarted set_loop] in Ia, Is.
      rewrite Haudio in Ia. rewrite Hsound in Is.
      destruct (audioStarted s), (soundStarted s),
        (count_type "audiostart" tr), (count_type "soundstart" tr),
        (count_type "audiostart" tr'), (count_type "soundstart" tr');
        cbn in *; try discriminate; auto.
Qed.

End SessionTraces.

Section SessionOutcomes.

Variable normalize :
  RecognitionResult -> nat -> TextNormalization -> SpeechRecognitionResult.
Variable config : Config.
Variable recognizer : Recognizer.

Local Abbreviation iteration := (body normalize config recognizer).
Local Abbreviation iterate := (run_loop normalize config recognizer).
Local Abbreviation epilogue := (after_loop recognizer).
Local Abbreviation session := (session_from normalize config recognizer).
Local Abbreviation normalized r :=
  (normalize r (maxAlternatives config) (textNormalization config)).

(** *** Stopping before the audio has started *)



(** *** Staged errors *)

Lemma after_loop_error (s : LoopState) (code : string) :
  finalEvent s = Some (FinalError code) ->
  dispatched (fst (epilogue s)) =
  pending_ends s ++ [ErrorEvent "error" (ErrorCode code); plain "end"].
Proof.
  destruct s as [sound speech stopping_ audio final fin n muted_ armed].
  cbn [finalEvent]. intros ->.
  unfold after_loop, pending_ends.
  destruct (detach_fails recognizer), (dispose_fails recognizer);
    destruct sound, speech, audio; reflexivity.
Qed.

Lemma session_from_left (queue : list SessionEvent) (s s' : LoopState) (tr : list Action) :
  iterate s queue = (tr, Left s') ->
  dispatched (fst (session s queue)) = dispatched tr ++ dispatched (fst (epilogue s')).
Proof.
  unfold session_from. intros ->.
  destruct (epilogue s') as [tr' [[] ?|?|?]]; cbn [fst]; now rewrite dispatched_app.
Qed.

(** A [canceled] event with an error text (lines 460-495). *)
Lemma body_canceled (message : string) (s : LoopState) :
  message <> "" ->
  exists tr s',
    iteration (canceled (Some message)) s = (tr, Break s') /\
    finalEvent s' = Some (FinalError (code_of_error_text message)).
Proof.
  intros Hmessage.
  destruct s as [sound speech stopping_ audio final fin n muted_ armed].
  unfold body, code_of_error_text. cbn.
  destruct (test_Permission_denied message); cbn; [eauto|].
  destruct message as [|c message]; [now elim Hmessage|]. cbn.
  destruct n, (test_1006 (String c message)), audio; cbn; eauto.
Qed.

Lemma body_abort (s : LoopState) :
  stopContinuousRecognition_fails recognizer = None ->
  exists tr s',
    iteration abort s = (tr, Next tt s') /\
    finalEvent s' = Some (FinalError "aborted") /\
    In stopContinuousRecognitionAsync tr /\
    muted s' = muted s.
Proof.
  intros Hstop.
  destruct s as [sound speech stopping_ audio final fin n muted_ armed].
  unfold body. cbn. rewrite test_Permission_denied_empty, Hstop. cbn.
  destruct n; cbn; (do 2 eexists; repeat split; cbn; tauto).
Qed.

Lemma body_stop (s : LoopState) :
  exists tr s',
    iteration stop s = (tr, Next tt s') /\
    finalEvent s' = finalEvent s /\
    ~ In stopContinuousRecognitionAsync tr /\
    muted s' = true.
Proof.
  destruct s as [sound speech stopping_ audio final fin n muted_ armed].
  unfold body. cbn. rewrite test_Permission_denied_empty. cbn.
  destruct n; cbn;
    (do 2 eexists; split; [reflexivity|]; split; [reflexivity|];
     split; [cbn; intuition discriminate|reflexivity]).
Qed.

(** A recognizable result with relaxed event order (lines 565-592). *)
Lemma body_recognizable_loose (r : RecognitionResult) (s : LoopState) :
  continuous config = false ->
  looseEvents config = true ->
  recognizable normalize config r = true ->
  exists tr s',
    iteration (recognized r) s = (tr, Next tt s') /\
    result_payloads tr = [finalizedResults s ++ [normalized r]] /\
    finalizedResults s' = finalizedResults s ++ [normalized r] /\
    finalEvent s' = None.
Proof.
  unfold recognizable. intros Hc Hl Hr.
  apply andb_true_iff in Hr as [Hreason Htop]. apply negb_true_iff in Hreason.
  destruct (alternatives (normalized r)) as [|top rest] eqn:Halt; [discriminate|].
  apply negb_true_iff in Htop.
  destruct s as [sound speech stopping_ audio final fin n muted_ armed].
  unfold body, emitCognitiveServices, errorMessage_of, backfill_starts, on_recognized.
  cbn. rewrite test_Permission_denied_empty. cbn. rewrite Hreason, Halt, Htop, Hc, Hl.
  destruct n, sound, speech, audio; cbn;
    (do 2 eexists; repeat split; reflexivity).
Qed.

(** A recognizable result with strict event order (lines 576-585). *)
Lemma body_recognizable_strict (r : RecognitionResult) (s : LoopState) :
  continuous config = false ->
  looseEvents config = false ->
  recognizable normalize config r = true ->
  exists tr s',
    iteration (recognized r) s = (tr, Next tt s') /\
    result_payloads tr = [] /\
    finalEvent s' = Some (FinalResult (finalizedResults s ++ [normalized r])).
Proof.
  unfold recognizable. intros Hc Hl Hr.
  apply andb_true_iff in Hr as [Hreason Htop]. apply negb_true_iff in Hreason.
  destruct (alternatives (normalized r)) as [|top rest] eqn:Halt; [discriminate|].
  apply negb_true_iff in Htop.
  destruct s as [sound speech stopping_ audio final fin n muted_ armed].
  unfold body, emitCognitiveServices, errorMessage_of, backfill_starts, on_recognized.
  cbn. rewrite test_Permission_denied_empty. cbn. rewrite Hreason, Halt, Htop, Hc, Hl.
  destruct n, sound, speech, audio; cbn;
    (do 2 eexists; repeat split; reflexivity).
Qed.

Lemma after_loop_result (s : LoopState) (r : SpeechRecognitionResult)
    (results : list SpeechRecognitionResult) :
  finalEvent s = Some (FinalResult (r :: results)) ->
  dispatched (fst (epilogue s)) =
  pending_ends s ++
  [SpeechRecognitionEvent "result" None (Some (r :: results)); plain "end"].
Proof.
  destruct s as [sound speech stopping_ audio final fin n muted_ armed].
  cbn [finalEvent]. intros ->.
  unfold after_loop, pending_ends.
  destruct (detach_fails recognizer), (dispose_fails recognizer);
    destruct sound, speech, audio; reflexivity.
Qed.

Lemma after_loop_nothing_staged (s : LoopState) :
  finalEvent s = None ->
  dispatched (fst (epilogue s)) = pending_ends s ++ [plain "end"].
Proof.
  destruct s as [sound speech stopping_ audio final fin n muted_ armed].
  cbn [finalEvent]. intros ->.
  unfold after_loop, pending_ends.
  destruct (detach_fails recognizer), (dispose_fails recognizer);
    destruct sound, speech, audio; reflexivity.
Qed.

End SessionOutcomes.

Section SessionPrefix.

Variable normalize :
  RecognitionResult -> nat -> TextNormalization -> SpeechRecognitionResult.
Variable config : Config.
Variable recognizer : Recognizer.

(** The session after the loop has consumed a first part of the queue. *)
Lemma session_from_app (queue1 queue2 : list SessionEvent) (s s1 : LoopState)
    (tr1 : list Action) :
  run_loop normalize config recognizer s queue1 = (tr1, Awaiting s1) ->
  session_from normalize config recognizer s (queue1 ++ queue2) =
  (tr1 ++ fst (session_from normalize config recognizer s1 queue2),
   snd (session_from normalize config recognizer s1 queue2)).
Proof.
  intros Hrun. unfold session_from.
  rewrite (run_loop_app _ _ _ queue1 queue2 _ _ _ Hrun).
  destruct (run_loop normalize config recognizer s1 queue2) as [tr [s'|s'|err]];
    cbn [fst snd]; try reflexivity.
  destruct (after_loop recognizer s') as [tr' [[] ?|?|?]]; cbn [fst snd];
    now rewrite app_assoc.
Qed.

Lemma startOnce_after_setup (queue : list SessionEvent) :
  createRecognizer_fails recognizer = None ->
  startContinuousRecognition_fails recognizer = None ->
  exists tr0,
    dispatched tr0 = [] /\
    ~ In stopContinuousRecognitionAsync tr0 /\
    _startOnce normalize config recognizer queue =
    (tr0 ++ fst (session_from normalize config recognizer initial_state queue),
     snd (session_from normalize config recognizer initial_state queue)).
Proof.
  intros Hcreate Hstart. exists (fst (setup config recognizer unset_state)).
  unfold _startOnce, setup. rewrite Hcreate, Hstart.
  destruct (referenceGrammars config) as [[|? ?]|], (phrases config) as [[|? ?]|]; cbn;
    destruct (session_from normalize config recognizer _ queue) as [tr c];
    (split; [reflexivity|split; [intuition discriminate|reflexivity]]).
Qed.

Lemma session_from_cons_awaited (event : SessionEvent) (queue : list SessionEvent)
    (s0 s : LoopState) (queue1 : list SessionEvent) (tr1 : list Action) :
  run_loop normalize config recognizer s0 queue1 = (tr1, Awaiting s) ->
  run_loop normalize config recognizer s (event :: queue) =
  match body normalize config recognizer event s with
  | (tr, Next _ s') =>
      let (tr', e) := run_loop normalize config recognizer (set_loop (S (loop s')) s') queue in
      (tr ++ tr', e)
  | (tr, Break s') => (tr, Left s')
  | (tr, Throw err) => (tr, Thrown_in_loop err)
  end.
Proof.
  intros Hrun. rewrite run_loop_cons.
  now rewrite (run_loop_awaiting _ _ _ _ _ _ _ Hrun).
Qed.

End SessionPrefix.

Section RecognizerCalls.

Variable normalize :
  RecognitionResult -> nat -> TextNormalization -> SpeechRecognitionResult.
Variable config : Config.
Variable recognizer : Recognizer.

Local Abbreviation iteration := (body normalize config recognizer).
Local Abbreviation iterate := (run_loop normalize config recognizer).

Lemma body_keeps_recognizing (event : SessionEvent) (s : LoopState) :
  may_stop_recognition config event = false ->
  ~ In stopContinuousRecognitionAsync (fst (iteration event s)).
Proof.
  destruct s as [sound speech stopping_ audio final fin n muted_ armed].
  destruct event; cbn [may_stop_recognition]; intros Hmay; try discriminate;
    try (apply negb_false_iff in Hmay);
    unfold body, emitCognitiveServices, errorMessage_of,
      backfill_starts, on_recognized, on_recognizing, on_audioSourceOff;
    rewrite ?Hmay;
    destruct sound, speech, audio; cbn;
    repeat (progress
              (repeat match goal with
               | |- context [test_Permission_denied ?x] => destruct (test_Permission_denied x)
               | |- context [test_1006 ?x] => destruct (test_1006 x)
               | |- context [truthy ?x] => destruct (truthy x)
               | |- context [ResultReason_beq ?x ?y] => destruct (ResultReason_beq x y)
               | |- context [alternatives ?x] => destruct (alternatives x)
               | |- context [String.eqb (transcript ?x) ?y] =>
                   destruct (String.eqb (transcript x) y)
               | |- context [interimResults config] => destruct (interimResults config)
               | |- context [looseEvents config] => destruct (looseEvents config)
               | |- context [Nat.eqb ?n 0] => destruct (Nat.eqb n 0)
               end); cbn);
    intuition discriminate.
Qed.

Lemma run_loop_keeps_recognizing (queue : list SessionEvent) (s : LoopState) :
  existsb (may_stop_recognition config) queue = false ->
  ~ In stopContinuousRecognitionAsync (fst (iterate s queue)).
Proof.
  revert s; induction queue as [|event queue IH]; intros s Hnone.
  - cbn. destruct (negb (stopping s) || audioStarted s); cbn; tauto.
  - cbn [existsb] in Hnone. apply orb_false_iff in Hnone as [Hevent Hnone].
    pose proof (body_keeps_recognizing event s Hevent) as Hb.
    rewrite run_loop_cons.
    destruct (negb (stopping s) || audioStarted s); [|cbn; tauto].
    destruct (iteration event s) as [tr [[] s'|s'|err]]; cbn [fst] in *; try assumption.
    specialize (IH (set_loop (S (loop s')) s') Hnone).
    destruct (iterate (set_loop (S (loop s')) s') queue) as [tr' e]; cbn [fst] in *.
    rewrite in_app_iff. tauto.
Qed.

Lemma after_loop_keeps_recognizing (s : LoopState) :
  ~ In stopContinuousRecognitionAsync (fst (after_loop recognizer s)).
Proof.
  destruct s as [sound speech stopping_ audio final fin n muted_ armed];
  unfold after_loop;
  destruct (detach_fails recognizer), (dispose_fails recognizer);
  destruct final as [[?|[|? ?]]|]; destruct sound, speech, audio; cbn;
  intuition discriminate.
Qed.

Lemma setup_keeps_recognizing (s : LoopState) :
  ~ In stopContinuousRecognitionAsync (fst (setup config recognizer s)).
Proof.
  unfold setup;
  destruct (createRecognizer_fails recognizer), (startContinuousRecognition_fails recognizer),
    (referenceGrammars config) as [[|? ?]|], (phrases config) as [[|? ?]|]; cbn;
  intuition discriminate.
Qed.

End RecognizerCalls.

(** An event staged by an iteration is what the code after the loop finds,
    when the events dequeued afterwards leave [finalEvent] alone. *)
Lemma staged_event_reaches_the_end
    (normalize : RecognitionResult -> nat -> TextNormalization -> SpeechRecognitionResult)
    (config : Config) (recognizer : Recognizer)
    (queue1 queue2 : list SessionEvent) (event : SessionEvent)
    (tr1 tr : list Action) (s s' : LoopState) :
  run_loop normalize config recognizer initial_state queue1 = (tr1, Awaiting s) ->
  body normalize config recognizer event s = (tr, Next tt s') ->
  forallb keeps_finalEvent queue2 = true ->
  snd (_startOnce normalize config recognizer (queue1 ++ event :: queue2)) = Resolved ->
  exists before s'',
    finalEvent s'' = finalEvent s' /\
    dispatched (fst (_startOnce normalize config recognizer (queue1 ++ event :: queue2))) =
    before ++ dispatched (fst (after_loop recognizer s'')).
Proof.
  intros Hrun Hbody Hkeep Hresolved.
  apply startOnce_resolved in Hresolved as (tr0 & Hsetup & -> & Hresolved).
  apply session_from_resolved in Hresolved as (tr' & s'' & Hloop & ->).
  rewrite (run_loop_app _ _ _ _ _ _ _ _ Hrun) in Hloop.
  rewrite (session_from_cons_awaited normalize config recognizer _ _ _ _ _ _ Hrun), Hbody
    in Hloop.
  pose proof (run_loop_keeps_finalEvent normalize config recognizer
                queue2 (set_loop (S (loop s')) s') Hkeep) as Hsame.
  destruct (run_loop normalize config recognizer (set_loop (S (loop s')) s') queue2)
    as [tr2 e].
  cbn [fst snd] in Hloop. injection Hloop as <- ->. cbn in Hsame.
  exists (dispatched tr1 ++ dispatched (tr ++ tr2)), s''. split; [assumption|].
  now rewrite !dispatched_app, Hsetup.
Qed.

(** ** X1: the debugging events *)



(** ** X2: the error taxonomy *)

(** X2.  [_startOnce] dispatches at most one [ErrorEvent], and the code it
    carries is one of [not-allowed], [network], [unknown], [aborted] and
    [no-speech]. *)
Theorem error_events_carry_a_taxonomy_code
    (normalize : RecognitionResult -> nat -> TextNormalization -> SpeechRecognitionResult)
    (config : Config) (recognizer : Recognizer) (queue : list SessionEvent) :
  error_codes (fst (_startOnce normalize config recognizer queue)) = [] \/
  exists code,
    In code taxonomy /\
    error_codes (fst (_startOnce normalize config recognizer queue)) = [code].
Proof.
  unfold _startOnce.
  pose proof (setup_error_codes config recognizer unset_state) as Hsetup.
  destruct (setup config recognizer unset_state) as [tr [[] s|s|err]] eqn:Hs;
    cbn [fst] in *; try (left; assumption).
  apply setup_state in Hs. subst s. unfold session_from.
  destruct (run_loop_error_codes normalize config recognizer queue initial_state I)
    as [Hloop Hstaged].
  destruct (run_loop normalize config recognizer initial_state queue) as [tr' [s'|s'|err]];
    cbn [fst snd] in *;
    try (left; now rewrite error_codes_app, Hsetup, Hloop).
  pose proof (after_loop_error_codes recognizer s' Hstaged) as Hafter.
  destruct (after_loop recognizer s') as [tr'' [[] ?|?|?]]; cbn [fst snd] in *;
    rewrite !error_codes_app, Hsetup, Hloop; cbn [app]; exact Hafter.
Qed.

(** ** X3: [start] comes first *)

(** X3.  Once the recognizer is created and started, unless the first
    dequeued event is a [canceled] event whose text matches
    [/Permission\sdenied/], the first lifecycle event dispatched is
    [start]. *)
Theorem start_is_dispatched_first
    (normalize : RecognitionResult -> nat -> TextNormalization -> SpeechRecognitionResult)
    (config : Config) (recognizer : Recognizer)
    (event : SessionEvent) (queue : list SessionEvent) :
  createRecognizer_fails recognizer = None ->
  startContinuousRecognition_fails recognizer = None ->
  test_Permission_denied (or_empty (errorMessage_of event)) = false ->
  hd_error (lifecycle (fst (_startOnce normalize config recognizer (event :: queue)))) =
  Some (plain "start").
Proof.
  intros Hcreate Hstart Hpermitted.
  destruct (startOnce_after_setup normalize config recognizer (event :: queue) Hcreate Hstart)
    as (tr0 & Hsetup & _ & ->).
  cbn [fst]. rewrite lifecycle_app, (lifecycle_no_dispatch _ Hsetup). cbn [app].
  pose proof (body_start_first normalize config recognizer event initial_state
                eq_refl Hpermitted) as Hfirst.
  unfold session_from. rewrite run_loop_cons. cbn [negb orb stopping audioStarted initial_state].
  destruct (body normalize config recognizer event initial_state) as [tr [[] s'|s'|err]];
    cbn [fst] in Hfirst.
  - destruct (run_loop normalize config recognizer (set_loop (S (loop s')) s') queue)
      as [tr' [s''|s''|err]]; cbn [fst];
      try destruct (after_loop recognizer s'') as [tr'' [[] ?|?|?]]; cbn [fst];
      rewrite !lifecycle_app;
      destruct (lifecycle tr); try discriminate; exact Hfirst.
  - destruct (after_loop recognizer s') as [tr'' [[] ?|?|?]]; cbn [fst];
      rewrite lifecycle_app; destruct (lifecycle tr); try discriminate; exact Hfirst.
  - cbn [fst]. exact Hfirst.
Qed.

Lemma start_is_dispatched_first_witness :
  createRecognizer_fails reliable = None /\
  startContinuousRecognition_fails reliable = None /\
  test_Permission_denied (or_empty (errorMessage_of (canceled (Some "Error 1006")))) = false /\
  hd_error (lifecycle (fst (_startOnce cognitiveServiceEventResultToWebSpeechRecognitionResultList
                              default_config reliable [canceled (Some "Error 1006")]))) =
  Some (plain "start").
Proof.
  split; [reflexivity|]. split; [reflexivity|]. split; [reflexivity|].
  apply (start_is_dispatched_first cognitiveServiceEventResultToWebSpeechRecognitionResultList
           default_config reliable (canceled (Some "Error 1006")) []); reflexivity.
Defined.

(** ** X4: one outcome in strict single-utterance mode *)

(** X4.  With [continuous], [interimResults] and [looseEvents] all off,
    the loop dispatches no [result] event, and the whole of [_startOnce]
    dispatches at most one event that is a [result] or an [error]. *)
Theorem strict_session_has_one_outcome
    (normalize : RecognitionResult -> nat -> TextNormalization -> SpeechRecognitionResult)
    (config : Config) (recognizer : Recognizer) (queue : list SessionEvent) :
  continuous config = false ->
  interimResults config = false ->
  looseEvents config = false ->
  (forall s, count_type "result" (fst (run_loop normalize config recognizer s queue)) = 0) /\
  count_type "result" (fst (_startOnce normalize config recognizer queue)) +
  count_type "error" (fst (_startOnce normalize config recognizer queue)) <= 1.
Proof.
  intros Hc Hi Hl. split.
  - intros s. now apply run_loop_strict_no_result.
  - unfold _startOnce.
    pose proof (setup_dispatches_nothing config recognizer unset_state) as Hsetup.
    destruct (setup config recognizer unset_state) as [tr [[] s|s|err]]; cbn [fst] in *;
      rewrite ?(count_type_no_dispatch _ _ Hsetup); try lia.
    pose proof (session_from_strict normalize config recognizer Hc Hi Hl queue s) as H.
    destruct (session_from normalize config recognizer s queue) as [tr' c]; cbn [fst] in *.
    rewrite !count_type_app, !(count_type_no_dispatch _ _ Hsetup). exact H.
Qed.

Lemma strict_session_has_one_outcome_witness :
  continuous default_config = false /\
  interimResults default_config = false /\
  looseEvents default_config = false /\
  count_type "result"
    (fst (_startOnce cognitiveServiceEventResultToWebSpeechRecognitionResultList default_config
            reliable [audioSourceReady; recognized hello; abort; audioSourceOff])) +
  count_type "error"
    (fst (_startOnce cognitiveServiceEventResultToWebSpeechRecognitionResultList default_config
            reliable [audioSourceReady; recognized hello; abort; audioSourceOff])) <= 1.
Proof.
  split; [reflexivity|]. split; [reflexivity|]. split; [reflexivity|].
  apply (strict_session_has_one_outcome
           cognitiveServiceEventResultToWebSpeechRecognitionResultList default_config
           reliable [audioSourceReady; recognized hello; abort; audioSourceOff]); reflexivity.
Defined.

(** ** X5: speech implies sound and audio *)

(** X5.  Whenever [_startOnce] dispatches [speechstart], it also
    dispatches [audiostart] and [soundstart]. *)
Theorem speechstart_comes_with_audio_and_sound
    (normalize : RecognitionResult -> nat -> TextNormalization -> SpeechRecognitionResult)
    (config : Config) (recognizer : Recognizer) (queue : list SessionEvent) :
  1 <= count_type "speechstart" (fst (_startOnce normalize config recognizer queue)) ->
  1 <= count_type "audiostart" (fst (_startOnce normalize config recognizer queue)) /\
  1 <= count_type "soundstart" (fst (_startOnce normalize config recognizer queue)).
Proof.
  unfold _startOnce.
  pose proof (setup_dispatches_nothing config recognizer unset_state) as Hsetup.
  destruct (setup config recognizer unset_state) as [tr [[] s|s|err]] eqn:Hs; cbn [fst] in *;
    try (rewrite !(count_type_no_dispatch _ _ Hsetup); lia).
  apply setup_state in Hs. subst s. unfold session_from.
  pose proof (run_loop_speechstart_flags normalize config recognizer queue initial_state)
    as Hloop.
  cbn [audioStarted soundStarted initial_state orb] in Hloop.
  assert (Hgoal : forall tr' tr'',
            (1 <= count_type "speechstart" tr' ->
             Nat.leb 1 (count_type "audiostart" tr') = true /\
             Nat.leb 1 (count_type "soundstart" tr') = true) ->
            count_type "speechstart" tr'' = 0 ->
            1 <= count_type "speechstart" (tr ++ tr' ++ tr'') ->
            1 <= count_type "audiostart" (tr ++ tr' ++ tr'') /\
            1 <= count_type "soundstart" (tr ++ tr' ++ tr'')).
  { intros tr' tr'' H Hnone. rewrite !count_type_app, !(count_type_no_dispatch _ _ Hsetup), Hnone.
    intros Hs. destruct H as [Ha Hb]; [lia|].
    apply Nat.leb_le in Ha, Hb. lia. }
  destruct (run_loop normalize config recognizer initial_state queue) as [tr' [s'|s'|err]];
    cbn [fst snd] in *.
  - destruct (after_loop_phase recognizer speech s') as [Hnone _]. cbn [start_event] in Hnone.
    destruct (after_loop recognizer s') as [tr'' [[] ?|?|?]]; cbn [fst snd] in *;
      now apply Hgoal.
  - rewrite <- (app_nil_r tr'). now apply Hgoal.
  - rewrite <- (app_nil_r tr'). now apply Hgoal.
Qed.

Lemma speechstart_comes_with_audio_and_sound_witness :
  1 <= count_type "speechstart"
         (fst (_startOnce cognitiveServiceEventResultToWebSpeechRecognitionResultList
                 default_config reliable [recognizing world])) /\
  1 <= count_type "audiostart"
         (fst (_startOnce cognitiveServiceEventResultToWebSpeechRecognitionResultList
                 default_config reliable [recognizing world])).
Proof.
  split; [vm_compute; lia|].
  apply (speechstart_comes_with_audio_and_sound
           cognitiveServiceEventResultToWebSpeechRecognitionResultList
           default_config reliable [recognizing world]).
  vm_compute; lia.
Defined.

(** ** X6: stopping before the audio has started *)



(** ** X7: a [canceled] event with an error text *)

(** X7.  Once the recognizer is created and started, a dequeued
    [canceled] event with a non-empty error text ends the session,
    whatever was staged before and whatever is queued behind it: the last
    two events dispatched are the [error] event, with code [not-allowed],
    [network] or [unknown] as the text matches [/Permission\sdenied/],
    else [/1006/], else neither, and [end]. *)
Theorem canceled_error_ends_the_session
    (normalize : RecognitionResult -> nat -> TextNormalization -> SpeechRecognitionResult)
    (config : Config) (recognizer : Recognizer)
    (queue1 rest : list SessionEvent) (message : string)
    (tr1 : list Action) (s : LoopState) :
  createRecognizer_fails recognizer = None ->
  startContinuousRecognition_fails recognizer = None ->
  run_loop normalize config recognizer initial_state queue1 = (tr1, Awaiting s) ->
  message <> "" ->
  exists before,
    dispatched (fst (_startOnce normalize config recognizer
                       (queue1 ++ canceled (Some message) :: rest))) =
    before ++ [ErrorEvent "error" (ErrorCode (code_of_error_text message)); plain "end"].
Proof.
  intros Hcreate Hstart Hrun Hmessage.
  destruct (startOnce_after_setup normalize config recognizer
              (queue1 ++ canceled (Some message) :: rest) Hcreate Hstart)
    as (tr0 & Hsetup & _ & ->).
  rewrite (session_from_app normalize config recognizer _ _ _ _ _ Hrun). cbn [fst].
  destruct (body_canceled normalize config recognizer message s Hmessage)
    as (tr & s' & Hbody & Hfinal).
  assert (Hloop : run_loop normalize config recognizer s (canceled (Some message) :: rest) =
                  (tr, Left s')).
  { rewrite (session_from_cons_awaited normalize config recognizer _ _ _ _ _ _ Hrun).
    now rewrite Hbody. }
  rewrite !dispatched_app, Hsetup.
  rewrite (session_from_left normalize config recognizer _ _ _ _ Hloop).
  rewrite (after_loop_error recognizer _ _ Hfinal).
  eexists. cbn [app]. rewrite !app_assoc. reflexivity.
Qed.

Lemma canceled_error_ends_the_session_witness :
  createRecognizer_fails reliable = None /\
  startContinuousRecognition_fails reliable = None /\
  run_loop cognitiveServiceEventResultToWebSpeechRecognitionResultList default_config reliable
    initial_state [audioSourceReady; recognized hello] =
    (fst (run_loop cognitiveServiceEventResultToWebSpeechRecognitionResultList default_config
            reliable initial_state [audioSourceReady; recognized hello]),
     Awaiting
       (set_loop 2
          (set_finalEvent
             (Some (FinalResult
                      [cognitiveServiceEventResultToWebSpeechRecognitionResultList hello 1 display]))
             (set_finalizedResults
                [cognitiveServiceEventResultToWebSpeechRecognitionResultList hello 1 display]
                (set_speechStarted true (set_soundStarted true
                   (set_audioStarted true initial_state))))))) /\
  "Connection was closed by the remote host. Error code: 1006." <> "" /\
  exists before,
    dispatched (fst (_startOnce cognitiveServiceEventResultToWebSpeechRecognitionResultList
                       default_config reliable
                       ([audioSourceReady; recognized hello] ++
                        canceled (Some "Connection was closed by the remote host. Error code: 1006.")
                        :: [audioSourceOff]))) =
    before ++ [ErrorEvent "error" (ErrorCode "network"); plain "end"].
Proof.
  split; [reflexivity|]. split; [reflexivity|]. split; [reflexivity|].
  split; [discriminate|].
  apply (canceled_error_ends_the_session
           cognitiveServiceEventResultToWebSpeechRecognitionResultList default_config reliable
           [audioSourceReady; recognized hello] [audioSourceOff]
           "Connection was closed by the remote host. Error code: 1006."
           _ _ eq_refl eq_refl eq_refl).
  discriminate.
Defined.

(** ** X8: [abort] *)

(** X8.  When [abort] is dequeued, the awaited stop of the recognizer
    succeeds, and no [abort], [recognized] or [canceled] event with an error
    text is dequeued after it, a session whose promise resolves ends with the
    [error] event of code [aborted] followed by [end]. *)
Theorem abort_ends_in_aborted
    (normalize : RecognitionResult -> nat -> TextNormalization -> SpeechRecognitionResult)
    (config : Config) (recognizer : Recognizer)
    (queue1 queue2 : list SessionEvent) (tr1 : list Action) (s : LoopState) :
  run_loop normalize config recognizer initial_state queue1 = (tr1, Awaiting s) ->
  stopContinuousRecognition_fails recognizer = None ->
  forallb keeps_finalEvent queue2 = true ->
  snd (_startOnce normalize config recognizer (queue1 ++ abort :: queue2)) = Resolved ->
  exists before,
    dispatched (fst (_startOnce normalize config recognizer (queue1 ++ abort :: queue2))) =
    before ++ [ErrorEvent "error" (ErrorCode "aborted"); plain "end"].
Proof.
  intros Hrun Hstop Hkeep Hresolved.
  destruct (body_abort normalize config recognizer s Hstop) as (tr & s' & Hbody & Hfinal & _).
  destruct (staged_event_reaches_the_end normalize config recognizer _ _ _ _ _ _ _
              Hrun Hbody Hkeep Hresolved) as (before & s'' & Hsame & ->).
  rewrite Hfinal in Hsame. rewrite (after_loop_error recognizer _ _ Hsame).
  eexists. rewrite app_assoc. reflexivity.
Qed.

Lemma abort_ends_in_aborted_witness :
  run_loop cognitiveServiceEventResultToWebSpeechRecognitionResultList default_config reliable
    initial_state [audioSourceReady] =
    ([dispatchEvent (SpeechRecognitionEvent "cognitiveservices" (Some audioSourceReady) None);
      dispatchEvent (plain "start"); dispatchEvent (plain "audiostart")],
     Awaiting (set_loop 1 (set_audioStarted true initial_state))) /\
  stopContinuousRecognition_fails reliable = None /\
  forallb keeps_finalEvent [recognizing world; audioSourceOff] = true /\
  snd (_startOnce cognitiveServiceEventResultToWebSpeechRecognitionResultList default_config
         reliable ([audioSourceReady] ++ abort :: [recognizing world; audioSourceOff]))
    = Resolved /\
  exists before,
    dispatched
      (fst (_startOnce cognitiveServiceEventResultToWebSpeechRecognitionResultList default_config
              reliable ([audioSourceReady] ++ abort :: [recognizing world; audioSourceOff]))) =
    before ++ [ErrorEvent "error" (ErrorCode "aborted"); plain "end"].
Proof.
  split; [reflexivity|]. split; [reflexivity|]. split; [reflexivity|]. split; [reflexivity|].
  apply (abort_ends_in_aborted cognitiveServiceEventResultToWebSpeechRecognitionResultList
           default_config reliable [audioSourceReady] [recognizing world; audioSourceOff]
           _ _ eq_refl eq_refl eq_refl eq_refl).
Defined.

(** ** X9: who stops the recognizer *)

(** X9.  [stopContinuousRecognitionAsync] is only called for an [abort]
    event or, outside continuous mode, for a [recognized] event: a session
    that dequeues neither never calls it; in particular [stop] does not. *)
Theorem only_abort_and_recognized_stop_the_recognizer
    (normalize : RecognitionResult -> nat -> TextNormalization -> SpeechRecognitionResult)
    (config : Config) (recognizer : Recognizer) (queue : list SessionEvent) :
  existsb (may_stop_recognition config) queue = false ->
  ~ In stopContinuousRecognitionAsync (fst (_startOnce normalize config recognizer queue)).
Proof.
  intros Hnone. unfold _startOnce.
  pose proof (setup_keeps_recognizing config recognizer unset_state) as Hsetup.
  destruct (setup config recognizer unset_state) as [tr [[] s|s|err]]; cbn [fst] in *;
    try assumption.
  unfold session_from.
  pose proof (run_loop_keeps_recognizing normalize config recognizer queue s Hnone) as Hloop.
  destruct (run_loop normalize config recognizer s queue) as [tr' [s'|s'|err]];
    cbn [fst] in *; try (rewrite in_app_iff; tauto).
  pose proof (after_loop_keeps_recognizing recognizer s') as Hafter.
  destruct (after_loop recognizer s') as [tr'' [[] ?|?|?]]; cbn [fst] in *;
    rewrite !in_app_iff; tauto.
Qed.

Lemma only_abort_and_recognized_stop_the_recognizer_witness :
  existsb (may_stop_recognition continuous_config)
    [audioSourceReady; recognized hello; stop; audioSourceOff] = false /\
  ~ In stopContinuousRecognitionAsync
      (fst (_startOnce cognitiveServiceEventResultToWebSpeechRecognitionResultList
              continuous_config reliable
              [audioSourceReady; recognized hello; stop; audioSourceOff])).
Proof.
  split; [reflexivity|].
  apply (only_abort_and_recognized_stop_the_recognizer
           cognitiveServiceEventResultToWebSpeechRecognitionResultList continuous_config
           reliable [audioSourceReady; recognized hello; stop; audioSourceOff]).
  reflexivity.
Defined.

(** ** X10 and X11: when the result of a single utterance is dispatched *)

(** X10.  Outside continuous mode and with strict event order, a
    recognizable [recognized] event dispatches no [result] event in its
    iteration; when no [abort], [recognized] or [canceled] event with an error
    text is dequeued after it, a session whose promise resolves dispatches
    the [result] event, carrying the finalized results with the new one
    appended, after everything else and just before [end]. *)
Theorem strict_result_is_dispatched_last
    (normalize : RecognitionResult -> nat -> TextNormalization -> SpeechRecognitionResult)
    (config : Config) (recognizer : Recognizer)
    (queue1 queue2 : list SessionEvent) (r : RecognitionResult)
    (tr1 : list Action) (s : LoopState) :
  continuous config = false ->
  looseEvents config = false ->
  recognizable normalize config r = true ->
  run_loop normalize config recognizer initial_state queue1 = (tr1, Awaiting s) ->
  forallb keeps_finalEvent queue2 = true ->
  snd (_startOnce normalize config recognizer (queue1 ++ recognized r :: queue2)) = Resolved ->
  result_payloads (fst (body normalize config recognizer (recognized r) s)) = [] /\
  exists before,
    dispatched (fst (_startOnce normalize config recognizer (queue1 ++ recognized r :: queue2))) =
    before ++
    [SpeechRecognitionEvent "result" None
       (Some (finalizedResults s ++
              [normalize r (maxAlternatives config) (textNormalization config)]));
     plain "end"].
Proof.
  intros Hc Hl Hr Hrun Hkeep Hresolved.
  destruct (body_recognizable_strict normalize config recognizer r s Hc Hl Hr)
    as (tr & s' & Hbody & Hpay & Hfinal).
  split; [now rewrite Hbody|].
  destruct (staged_event_reaches_the_end normalize config recognizer _ _ _ _ _ _ _
              Hrun Hbody Hkeep Hresolved) as (before & s'' & Hsame & ->).
  rewrite Hfinal in Hsame.
  destruct (finalizedResults s ++
            [normalize r (maxAlternatives config) (textNormalization config)])
    as [|x results] eqn:Hresults; [now destruct (finalizedResults s)|].
  rewrite (after_loop_result recognizer _ _ _ Hsame).
  eexists. rewrite app_assoc. reflexivity.
Qed.

Lemma strict_result_is_dispatched_last_witness :
  continuous default_config = false /\
  looseEvents default_config = false /\
  recognizable cognitiveServiceEventResultToWebSpeechRecognitionResultList default_config hello
    = true /\
  run_loop cognitiveServiceEventResultToWebSpeechRecognitionResultList default_config reliable
    initial_state [audioSourceReady] =
    ([dispatchEvent (SpeechRecognitionEvent "cognitiveservices" (Some audioSourceReady) None);
      dispatchEvent (plain "start"); dispatchEvent (plain "audiostart")],
     Awaiting (set_loop 1 (set_audioStarted true initial_state))) /\
  forallb keeps_finalEvent [audioSourceOff] = true /\
  snd (_startOnce cognitiveServiceEventResultToWebSpeechRecognitionResultList default_config
         reliable ([audioSourceReady] ++ recognized hello :: [audioSourceOff])) = Resolved /\
  exists before,
    dispatched (fst (_startOnce cognitiveServiceEventResultToWebSpeechRecognitionResultList
                       default_config reliable
                       ([audioSourceReady] ++ recognized hello :: [audioSourceOff]))) =
    before ++
    [SpeechRecognitionEvent "result" None
       (Some [cognitiveServiceEventResultToWebSpeechRecognitionResultList hello 1 display]);
     plain "end"].
Proof.
  split; [reflexivity|]. split; [reflexivity|]. split; [reflexivity|]. split; [reflexivity|].
  split; [reflexivity|]. split; [reflexivity|].
  apply (strict_result_is_dispatched_last
           cognitiveServiceEventResultToWebSpeechRecognitionResultList default_config reliable
           [audioSourceReady] [audioSourceOff] hello _ _
           eq_refl eq_refl eq_refl eq_refl eq_refl eq_refl).
Defined.

Lemma result_payloads_app (tr1 tr2 : list Action) :
  result_payloads (tr1 ++ tr2) = result_payloads tr1 ++ result_payloads tr2.
Proof.
  induction tr1 as [|a tr1 IH]; [reflexivity|].
  destruct a as [[type ? [results|]|? ?]| |?|?| | | |]; cbn; rewrite ?IH; try reflexivity.
  now destruct (String.eqb type "result").
Qed.

Lemma result_payloads_no_dispatch (tr : list Action) :
  dispatched tr = [] -> result_payloads tr = [].
Proof.
  induction tr as [|a tr IH]; [reflexivity|].
  destruct a as [?| |?|?| | | |]; cbn; try assumption; discriminate.
Qed.

Section Quiet.

Variable normalize :
  RecognitionResult -> nat -> TextNormalization -> SpeechRecognitionResult.
Variable config : Config.
Variable recognizer : Recognizer.

Hypothesis no_interim : interimResults config = false.

(** Without interim results, only [recognized] events dispatch results
    inside the loop. *)
Lemma body_without_result (event : SessionEvent) (s : LoopState) :
  keeps_finalEvent event = true ->
  result_payloads (fst (body normalize config recognizer event s)) = [].
Proof.
  intros Hkeep.
  destruct event; try discriminate;
    destruct s as [sound speech stopping_ audio final fin n muted_ armed];
    unfold body, emitCognitiveServices, errorMessage_of,
      backfill_starts, on_recognizing, on_audioSourceOff;
    rewrite ?no_interim;
    cbn in *; rewrite ?test_Permission_denied_empty;
    try (destruct errorDetails as [[|? ?]|]; try discriminate;
         cbn; rewrite ?test_Permission_denied_empty);
    destruct n, sound, speech, audio; reflexivity.
Qed.

Lemma run_loop_without_result (queue : list SessionEvent) (s : LoopState) :
  forallb keeps_finalEvent queue = true ->
  result_payloads (fst (run_loop normalize config recognizer s queue)) = [].
Proof.
  revert s; induction queue as [|event queue IH]; intros s Hall.
  - cbn. now destruct (negb (stopping s) || audioStarted s).
  - cbn [forallb] in Hall. apply andb_true_iff in Hall as [Hevent Hall].
    pose proof (body_without_result event s Hevent) as Hb.
    rewrite run_loop_cons.
    destruct (negb (stopping s) || audioStarted s); [|reflexivity].
    destruct (body normalize config recognizer event s) as [tr [[] s'|s'|err]];
      cbn [fst] in *; try assumption.
    specialize (IH (set_loop (S (loop s')) s') Hall).
    destruct (run_loop normalize config recognizer (set_loop (S (loop s')) s') queue)
      as [tr' e]; cbn [fst] in *.
    now rewrite result_payloads_app, Hb, IH.
Qed.

Lemma after_loop_without_result (s : LoopState) :
  finalEvent s = None ->
  result_payloads (fst (after_loop recognizer s)) = [].
Proof.
  destruct s as [sound speech stopping_ audio final fin n muted_ armed].
  cbn [finalEvent]. intros ->. unfold after_loop.
  destruct (detach_fails recognizer), (dispose_fails recognizer);
    destruct sound, speech, audio; reflexivity.
Qed.

End Quiet.

(** X11.  Outside continuous mode, with relaxed event order and without
    interim results, a recognizable [recognized] event dispatches in its own
    iteration one [result] event carrying the finalized results with the new
    one appended; when no [abort], [recognized] or [canceled] event with an
    error text is dequeued after it, a session whose promise resolves
    dispatches no further [result] event: the result is not dispatched
    again after the loop. *)
Theorem loose_result_is_dispatched_at_once
    (normalize : RecognitionResult -> nat -> TextNormalization -> SpeechRecognitionResult)
    (config : Config) (recognizer : Recognizer)
    (queue1 queue2 : list SessionEvent) (r : RecognitionResult)
    (tr1 : list Action) (s : LoopState) :
  continuous config = false ->
  looseEvents config = true ->
  interimResults config = false ->
  recognizable normalize config r = true ->
  run_loop normalize config recognizer initial_state queue1 = (tr1, Awaiting s) ->
  forallb keeps_finalEvent queue2 = true ->
  snd (_startOnce normalize config recognizer (queue1 ++ recognized r :: queue2)) = Resolved ->
  result_payloads (fst (body normalize config recognizer (recognized r) s)) =
    [finalizedResults s ++ [normalize r (maxAlternatives config) (textNormalization config)]] /\
  result_payloads
    (fst (_startOnce normalize config recognizer (queue1 ++ recognized r :: queue2))) =
  result_payloads tr1 ++
  [finalizedResults s ++ [normalize r (maxAlternatives config) (textNormalization config)]].
Proof.
  intros Hc Hl Hi Hr Hrun Hkeep Hresolved.
  destruct (body_recognizable_loose normalize config recognizer r s Hc Hl Hr)
    as (tr & s' & Hbody & Hpay & _ & Hfinal).
  split; [now rewrite Hbody|].
  apply startOnce_resolved in Hresolved as (tr0 & Hsetup & -> & Hresolved).
  apply session_from_resolved in Hresolved as (tr' & s'' & Hloop & ->).
  rewrite (run_loop_app _ _ _ _ _ _ _ _ Hrun) in Hloop.
  rewrite (session_from_cons_awaited normalize config recognizer _ _ _ _ _ _ Hrun), Hbody
    in Hloop.
  pose proof (run_loop_keeps_finalEvent normalize config recognizer
                queue2 (set_loop (S (loop s')) s') Hkeep) as Hsame.
  pose proof (run_loop_without_result normalize config recognizer Hi
                queue2 (set_loop (S (loop s')) s') Hkeep) as Hquiet.
  destruct (run_loop normalize config recognizer (set_loop (S (loop s')) s') queue2)
    as [tr2 e].
  cbn [fst snd] in Hloop, Hquiet. injection Hloop as <- ->. cbn in Hsame.
  rewrite Hfinal in Hsame.
  rewrite !result_payloads_app, (result_payloads_no_dispatch _ Hsetup), Hpay, Hquiet,
    (after_loop_without_result recognizer _ Hsame).
  cbn [app]. now rewrite !app_nil_r.
Qed.

Lemma loose_result_is_dispatched_at_once_witness :
  continuous (loose_config) = false /\
  looseEvents loose_config = true /\
  interimResults loose_config = false /\
  recognizable cognitiveServiceEventResultToWebSpeechRecognitionResultList loose_config hello
    = true /\
  run_loop cognitiveServiceEventResultToWebSpeechRecognitionResultList loose_config reliable
    initial_state [audioSourceReady] =
    ([dispatchEvent (SpeechRecognitionEvent "cognitiveservices" (Some audioSourceReady) None);
      dispatchEvent (plain "start"); dispatchEvent (plain "audiostart")],
     Awaiting (set_loop 1 (set_audioStarted true initial_state))) /\
  forallb keeps_finalEvent [audioSourceOff] = true /\
  snd (_startOnce cognitiveServiceEventResultToWebSpeechRecognitionResultList loose_config
         reliable ([audioSourceReady] ++ recognized hello :: [audioSourceOff])) = Resolved /\
  result_payloads
    (fst (_startOnce cognitiveServiceEventResultToWebSpeechRecognitionResultList loose_config
            reliable ([audioSourceReady] ++ recognized hello :: [audioSourceOff]))) =
  [[cognitiveServiceEventResultToWebSpeechRecognitionResultList hello 1 display]].
Proof.
  split; [reflexivity|]. split; [reflexivity|]. split; [reflexivity|]. split; [reflexivity|].
  split; [reflexivity|]. split; [reflexivity|]. split; [reflexivity|].
  apply (loose_result_is_dispatched_at_once
           cognitiveServiceEventResultToWebSpeechRecognitionResultList loose_config reliable
           [audioSourceReady] [audioSourceOff] hello _ _
           eq_refl eq_refl eq_refl eq_refl eq_refl eq_refl eq_refl).
Defined.

(** ** X12: a transport failure before the audio has started *)

(** X12.  Once the recognizer is created and started, a first
    [canceled] event whose error text matches [/1006/] and not
    [/Permission\sdenied/] gives the lifecycle events [start],
    [audiostart], [audioend], the [error] event of code [network], and
    [end], whatever is queued behind it. *)
Theorem network_failure_before_audio
    (normalize : RecognitionResult -> nat -> TextNormalization -> SpeechRecognitionResult)
    (config : Config) (recognizer : Recognizer)
    (message : string) (rest : list SessionEvent) :
  createRecognizer_fails recognizer = None ->
  startContinuousRecognition_fails recognizer = None ->
  test_Permission_denied message = false ->
  test_1006 message = true ->
  lifecycle (fst (_startOnce normalize config recognizer (canceled (Some message) :: rest))) =
  [plain "start"; plain "audiostart"; plain "audioend";
   ErrorEvent "error" (ErrorCode "network"); plain "end"].
Proof.
  intros Hcreate Hstart Hpermitted Hnetwork.
  destruct (startOnce_after_setup normalize config recognizer
              (canceled (Some message) :: rest) Hcreate Hstart) as (tr0 & Hsetup & _ & ->).
  cbn [fst]. rewrite lifecycle_app, (lifecycle_no_dispatch _ Hsetup). cbn [app].
  destruct message as [|c message]; [discriminate|].
  unfold session_from. rewrite run_loop_cons. cbn [negb orb stopping audioStarted initial_state].
  unfold body. cbn. rewrite Hpermitted. cbn. rewrite Hnetwork. cbn.
  unfold after_loop. destruct (detach_fails recognizer), (dispose_fails recognizer); reflexivity.
Qed.

Lemma network_failure_before_audio_witness :
  createRecognizer_fails reliable = None /\
  startContinuousRecognition_fails reliable = None /\
  test_Permission_denied "Error code: 1006" = false /\
  test_1006 "Error code: 1006" = true /\
  lifecycle (fst (_startOnce cognitiveServiceEventResultToWebSpeechRecognitionResultList
                    default_config reliable
                    (canceled (Some "Error code: 1006") :: [audioSourceReady]))) =
  [plain "start"; plain "audiostart"; plain "audioend";
   ErrorEvent "error" (ErrorCode "network"); plain "end"].
Proof.
  split; [reflexivity|]. split; [reflexivity|]. split; [reflexivity|]. split; [reflexivity|].
  apply (network_failure_before_audio
           cognitiveServiceEventResultToWebSpeechRecognitionResultList default_config reliable
           "Error code: 1006" [audioSourceReady]); reflexivity.
Defined.

(** * Further properties of the audio chunk monitor *)

Lemma read_improviser_spec (now : Z) (chunk : Chunk) (s : LoopState) :
  read_improviser now chunk s =
  (if audible (buffer chunk) && onAudibleChunk s then [firstAudibleChunk] else [],
   set_onAudibleChunk (onAudibleChunk s && negb (audible (buffer chunk))) s,
   match averageAmplitude (buffer chunk) with
   | inl err => inl err
   | inr _ =>
       if muted s then inr {| buffer := []; isEnd := true; timeReceived := now |}
       else inr chunk
   end).
Proof.
  destruct s as [sound speech stopping_ audio final fin n muted_ armed].
  unfold read_improviser, audible.
  destruct (averageAmplitude (buffer chunk)) as [err|amplitude]; cbn.
  - now rewrite andb_true_r.
  - destruct (greater_than amplitude 150), armed, muted_; reflexivity.
Qed.

Lemma existsb_audible_cons (read : Z * Chunk) (reads : list (Z * Chunk)) :
  existsb (fun r => audible (buffer (snd r))) (read :: reads) =
  audible (buffer (snd read)) || existsb (fun r => audible (buffer (snd r))) reads.
Proof. reflexivity. Qed.

Lemma read_all_pushed (reads : list (Z * Chunk)) (s : LoopState) :
  fst (fst (read_all reads s)) =
    (if onAudibleChunk s && existsb (fun r => audible (buffer (snd r))) reads
     then [firstAudibleChunk] else []) /\
  onAudibleChunk (snd (fst (read_all reads s))) =
    onAudibleChunk s && negb (existsb (fun r => audible (buffer (snd r))) reads).
Proof.
  revert s; induction reads as [|[now chunk] reads IH]; intros s.
  - cbn. now rewrite !andb_false_r, andb_true_r.
  - cbn [read_all]. rewrite read_improviser_spec.
    specialize (IH (set_onAudibleChunk
                      (onAudibleChunk s && negb (audible (buffer chunk))) s)).
    destruct (read_all reads _) as [[pushed' s''] results]. cbn [fst snd] in *.
    destruct IH as [-> ->]. rewrite existsb_audible_cons. cbn [snd onAudibleChunk set_onAudibleChunk].
    destruct (audible (buffer chunk)), (onAudibleChunk s),
      (existsb (fun r => audible (buffer (snd r))) reads); split; reflexivity.
Qed.

(** ** X13: the audible chunk is reported once *)

(** X13.  Over any succession of reads, [firstAudibleChunk] is pushed on
    the queue exactly once if the callback is armed and some chunk has an
    average amplitude above 150, and not at all otherwise; the callback is
    left armed only if it was armed and no chunk was audible. *)
Theorem first_audible_chunk_is_reported_once (reads : list (Z * Chunk)) (s : LoopState) :
  fst (fst (read_all reads s)) =
    (if onAudibleChunk s && existsb (fun r => audible (buffer (snd r))) reads
     then [firstAudibleChunk] else []) /\
  onAudibleChunk (snd (fst (read_all reads s))) =
    onAudibleChunk s && negb (existsb (fun r => audible (buffer (snd r))) reads).
Proof. apply read_all_pushed. Qed.

(** ** X14: reads leave the loop variables alone *)

(** X14.  Reads of the audio source change no variable of the session
    but [onAudibleChunk]: the flags, [stopping], [muted], [finalEvent],
    [finalizedResults] and the loop counter are as before; and while
    [muted] is not set every read whose amplitude could be computed returns
    the chunk of the underlying reader unchanged. *)
Theorem reads_leave_the_session_state (reads : list (Z * Chunk)) (s : LoopState) :
  snd (fst (read_all reads s)) =
    set_onAudibleChunk (onAudibleChunk (snd (fst (read_all reads s)))) s /\
  (muted s = false -> snd (read_all reads s) = map passed_through reads).
Proof.
  revert s; induction reads as [|[now chunk] reads IH]; intros s.
  - split; [now destruct s|reflexivity].
  - cbn [read_all]. rewrite read_improviser_spec.
    specialize (IH (set_onAudibleChunk
                      (onAudibleChunk s && negb (audible (buffer chunk))) s)).
    destruct (read_all reads _) as [[pushed' s''] results]. cbn [fst snd] in *.
    destruct IH as [Hstate Hresults]. split.
    + rewrite Hstate. now destruct s.
    + intros Hmuted. rewrite Hmuted. cbn [map]. f_equal.
      apply Hresults. now destruct s.
Qed.

Lemma reads_leave_the_session_state_witness :
  muted initial_state = false /\
  snd (read_all [(1%Z, loud_chunk); (2%Z, odd_chunk)] initial_state) =
  [inr loud_chunk; inl (RangeError "byte length of Int16Array should be a multiple of 2")].
Proof.
  split; [reflexivity|].
  apply (proj2 (reads_leave_the_session_state [(1%Z, loud_chunk); (2%Z, odd_chunk)]
                  initial_state)).
  reflexivity.
Defined.

(** ** X15: quiet and loud chunks *)

Lemma sum_abs_bounds (array : list Z) (acc low high : Z) :
  Forall (fun a => (low <= Z.abs a <= high)%Z) array ->
  (acc + low * Z.of_nat (List.length array)
   <= fold_left (fun averageAmplitude amplitude => (averageAmplitude + Z.abs amplitude)%Z)
        array acc
   <= acc + high * Z.of_nat (List.length array))%Z.
Proof.
  intros Hall. revert acc.
  induction Hall as [|a array Ha _ IH]; intros acc.
  - cbn. lia.
  - cbn [fold_left List.length]. specialize (IH (acc + Z.abs a)%Z). lia.
Qed.

Lemma sum_abs_above (array : list Z) (acc : Z) :
  Forall (fun a => (150 < Z.abs a)%Z) array ->
  (acc + 151 * Z.of_nat (List.length array)
   <= fold_left (fun averageAmplitude amplitude => (averageAmplitude + Z.abs amplitude)%Z)
        array acc)%Z.
Proof.
  intros Hall. revert acc.
  induction Hall as [|a array Ha _ IH]; intros acc.
  - cbn. lia.
  - cbn [fold_left List.length]. specialize (IH (acc + Z.abs a)%Z). lia.
Qed.

(** X15.  A chunk all of whose 16-bit samples have an absolute value of
    at most 150 never triggers the audible-chunk callback, and a non-empty
    chunk all of whose samples have an absolute value above 150 does; an
    empty buffer does not. *)
Theorem quiet_chunks_are_not_audible (arrayBuffer : list byte) (array : list Z) :
  Int16Array arrayBuffer = Some array ->
  (Forall (fun a => (Z.abs a <= 150)%Z) array -> audible arrayBuffer = false) /\
  (array <> [] -> Forall (fun a => (150 < Z.abs a)%Z) array -> audible arrayBuffer = true) /\
  (array = [] -> audible arrayBuffer = false).
Proof.
  intros Hview. unfold audible, averageAmplitude. rewrite Hview.
  destruct array as [|a array]; [repeat split; try reflexivity; now intros []|].
  set (total := fold_left _ _ _).
  set (n := List.length (a :: array)).
  assert (Hn : Z.pos (Pos.of_nat n) = Z.of_nat n).
  { unfold n. cbn [List.length]. lia. }
  repeat split.
  - intros Hquiet. cbn [greater_than]. apply negb_false_iff, Qle_bool_iff.
    unfold Qle. cbn [Qnum Qden inject_Z]. rewrite Hn.
    pose proof (sum_abs_bounds (a :: array) 0 0 150) as Hbounds.
    fold total n in Hbounds.
    assert (Hall : Forall (fun a => (0 <= Z.abs a <= 150)%Z) (a :: array)).
    { eapply Forall_impl; [|exact Hquiet]. cbn. intros; lia. }
    specialize (Hbounds Hall). lia.
  - intros _ Hloud. cbn [greater_than]. apply negb_true_iff.
    destruct (Qle_bool (total # Pos.of_nat n) (inject_Z 150)) eqn:Hle; [|reflexivity].
    apply Qle_bool_iff in Hle. unfold Qle in Hle. cbn [Qnum Qden inject_Z] in Hle.
    rewrite Hn in Hle.
    pose proof (sum_abs_above (a :: array) 0 Hloud) as Hsum.
    fold total n in Hsum.
    assert (Hn' : (0 < Z.of_nat n)%Z) by (unfold n; cbn [List.length]; lia).
    lia.
  - discriminate.
Qed.

Lemma quiet_chunks_are_not_audible_witness :
  Int16Array (buffer loud_chunk) = Some [300%Z] /\
  [300%Z] <> [] /\
  Forall (fun a => (150 < Z.abs a)%Z) [300%Z] /\
  audible (buffer loud_chunk) = true.
Proof.
  split; [reflexivity|]. split; [discriminate|].
  split; [repeat constructor|].
  apply (proj1 (proj2 (quiet_chunks_are_not_audible (buffer loud_chunk) [300%Z] eq_refl)));
    [discriminate|repeat constructor].
Defined.

(** ** X16: no audible chunk after the session *)

(** X16.  The code after the loop disarms the audible-chunk callback:
    once it has run through, no read pushes [firstAudibleChunk], however
    loud the chunks are. *)
Theorem no_audible_chunk_after_the_session
    (recognizer : Recognizer) (s s' : LoopState) (tr : list Action)
    (reads : list (Z * Chunk)) :
  after_loop recognizer s = (tr, Next tt s') ->
  fst (fst (read_all reads s')) = [].
Proof.
  intros Hafter.
  assert (Hdisarmed : onAudibleChunk s' = false).
  { revert Hafter. destruct s as [sound speech stopping_ audio final fin n muted_ armed].
    unfold after_loop.
    destruct (detach_fails recognizer), (dispose_fails recognizer);
      destruct final as [[?|[|? ?]]|]; destruct sound, speech, audio; cbn;
      intros H; inversion H; reflexivity. }
  rewrite (proj1 (read_all_pushed reads s')), Hdisarmed. reflexivity.
Qed.

Lemma no_audible_chunk_after_the_session_witness :
  after_loop reliable initial_state =
    ([dispatchEvent (plain "end"); detachAudioConfigEvent; dispose],
     Next tt (set_onAudibleChunk false initial_state)) /\
  fst (fst (read_all [(1%Z, loud_chunk)] (set_onAudibleChunk false initial_state))) = [].
Proof.
  split; [reflexivity|].
  apply (no_audible_chunk_after_the_session reliable initial_state
           (set_onAudibleChunk false initial_state)
           [dispatchEvent (plain "end"); detachAudioConfigEvent; dispose]
           [(1%Z, loud_chunk)]).
  reflexivity.
Defined.

(** * Further properties of the factory, the utterance and the voices *)

(** ** X17: when the factory exports *)

(** X17.  The factory returns the three exports exactly when it has a
    truthy [authorizationToken] or [subscriptionKey] and the environment
    has [getUserMedia]; only then does it patch [audioConfig.attach] and
    configure telemetry, which is on unless [enableTelemetry] is [false];
    and the exported class closes over [looseEvent] when it is given,
    over [looseEvents] otherwise.  When it does not export, it returns the
    empty object, unless it has credentials and cannot read
    [window.navigator]: it then throws. *)
Theorem factory_exports_iff_ready (window : option Factory.Window) (o : Factory.Options) :
  let credentials :=
    Factory.token_truthy (Factory.authorizationToken o) || truthy (Factory.subscriptionKey o) in
  let ready := credentials && Factory.supports_getUserMedia window in
  snd (Factory.createSpeechRecognitionPonyfill window o) =
    (if ready
     then inr (Factory.Exports match Factory.looseEvent o with
                               | Some v => Some v
                               | None => Factory.looseEvents o
                               end)
     else
       match Factory.window_navigator window with
       | inl err => if credentials then inl err else inr Factory.EmptyObject
       | inr _ => inr Factory.EmptyObject
       end) /\
  (In Factory.improvise_attach (fst (Factory.createSpeechRecognitionPonyfill window o)) <->
   ready = true) /\
  (forall value,
     In (Factory.SpeechRecognizer_enableTelemetry value)
        (fst (Factory.createSpeechRecognitionPonyfill window o)) <->
     ready = true /\
     value = match Factory.enableTelemetry o with Some false => false | _ => true end).
Proof.
  unfold Factory.createSpeechRecognitionPonyfill, Factory.supports_getUserMedia. cbn zeta.
  destruct (Factory.token_truthy (Factory.authorizationToken o)),
    (truthy (Factory.subscriptionKey o)),
    (Factory.window_navigator window) as [err|n];
    try destruct (Factory.has_getUserMedia n);
    destruct (Factory.looseEvent o); cbn;
    (split; [reflexivity|]);
    (split; [|intros value]);
    intuition (try discriminate; try congruence; subst; auto).
Qed.

Lemma factory_exports_iff_ready_witness :
  In Factory.improvise_attach
    (fst (Factory.createSpeechRecognitionPonyfill
            (Factory.browser webrtc_browser) with_subscription_key)) /\
  snd (Factory.createSpeechRecognitionPonyfill
         (Factory.browser webrtc_browser) with_subscription_key) =
    inr (Factory.Exports (Some true)).
Proof.
  destruct (factory_exports_iff_ready (Factory.browser webrtc_browser) with_subscription_key)
    as (Hexports & Hattach & _).
  split; [now apply Hattach|exact Hexports].
Defined.

(** ** X18, X19 and X20: playing an utterance *)

(** X18.  [play] emits [start] first, also when the audio data could not
    be fetched, and after it at most one more event.  As long as the
    fetched data, the decoding or the playback has not settled, with
    nothing failed before it, there is none and the promise of [play] is
    pending.  Otherwise the promise is resolved and there is exactly one:
    [end] when the buffer source was created, the data was fetched and
    decoded and the playback ended, and otherwise [error] with the first of
    these failures. *)
Theorem play_emits_start_then_at_most_one_outcome
    (audioContext : Utterance.AudioContext) (u : Utterance.State) :
  exists rest,
    Utterance.emitted (Utterance.trace (Utterance.play audioContext u)) =
      ("start", None) :: rest /\
    (Utterance.completion (Utterance.play audioContext u) = Pending /\ rest = [] \/
     Utterance.completion (Utterance.play audioContext u) = Resolved /\
     exists outcome, rest = [outcome]) /\
    match Utterance.createBufferSource_fails audioContext, Utterance.awaited u with
    | Some err, _ => rest = [("error", Some err)]
    | None, Utterance.rejected err => rest = [("error", Some err)]
    | None, Utterance.pending => rest = []
    | None, Utterance.fulfilled arrayBuffer =>
        match Utterance.decodeAudioData_settles audioContext arrayBuffer,
              Utterance.playDecoded_settles audioContext with
        | Utterance.rejected err, _ => rest = [("error", Some err)]
        | Utterance.pending, _ => rest = []
        | Utterance.fulfilled _, Utterance.rejected err => rest = [("error", Some err)]
        | Utterance.fulfilled _, Utterance.pending => rest = []
        | Utterance.fulfilled _, Utterance.fulfilled _ => rest = [("end", None)]
        end
    end.
Proof.
  unfold Utterance.play.
  destruct (Utterance.createBufferSource_fails audioContext); [cbn; eauto 7|].
  destruct (Utterance.awaited u) as [arrayBuffer|err|]; [|cbn; eauto 7..].
  destruct (Utterance.decodeAudioData_settles audioContext arrayBuffer); [|cbn; eauto 7..].
  destruct (Utterance.playDecoded_settles audioContext); cbn; eauto 7.
Qed.

(** X19.  After [play], be it resolved or suspended, [stop] stops a source
    exactly when the playback was reached and has not ended, having failed
    or being still under way, or when the playback was not reached and a
    source was already held: a playback that ends clears the source, and
    a playback that fails leaves it in place. *)
Theorem stop_after_play
    (audioContext : Utterance.AudioContext) (u : Utterance.State) :
  Utterance.stop (Utterance.state (Utterance.play audioContext u)) =
  if Utterance.played (Utterance.trace (Utterance.play audioContext u))
  then
    match Utterance.playDecoded_settles audioContext with
    | Utterance.fulfilled _ => []
    | Utterance.rejected _ | Utterance.pending => [Utterance.source_stop]
    end
  else Utterance.stop u.
Proof.
  unfold Utterance.play.
  destruct (Utterance.createBufferSource_fails audioContext); [reflexivity|].
  destruct (Utterance.awaited u) as [arrayBuffer|err|]; [|reflexivity..].
  destruct (Utterance.decodeAudioData_settles audioContext arrayBuffer); [|reflexivity..].
  destruct (Utterance.playDecoded_settles audioContext); reflexivity.
Qed.

(** X20.  A failed [preload] is swallowed there and reported by the next
    [play]: with a buffer source at hand, [play] emits [start] and then
    [error] with the failure of the fetch, neither decodes nor plays
    anything, and its promise is resolved. *)
Theorem failed_preload_is_reported_by_play
    (audioContext : Utterance.AudioContext) (u : Utterance.State) (err : Failure) :
  Utterance.createBufferSource_fails audioContext = None ->
  Utterance.play audioContext (Utterance.preload (Utterance.rejected err) u) =
  {| Utterance.trace :=
       [Utterance.emit "start" None; Utterance.createBufferSource;
        Utterance.emit "error" (Some err)];
     Utterance.state := Utterance.preload (Utterance.rejected err) u;
     Utterance.completion := Resolved |}.
Proof.
  intros Hsource. unfold Utterance.play. now rewrite Hsource.
Qed.

Lemma failed_preload_is_reported_by_play_witness :
  Utterance.createBufferSource_fails sound_context = None /\
  Utterance.emitted
    (Utterance.trace
       (Utterance.play sound_context
          (Utterance.preload (Utterance.rejected (Rejection "Failed to fetch"))
             fresh_utterance))) =
  [("start", None); ("error", Some (Rejection "Failed to fetch"))].
Proof.
  split; [reflexivity|].
  rewrite (failed_preload_is_reported_by_play sound_context fresh_utterance
             (Rejection "Failed to fetch") eq_refl).
  reflexivity.
Defined.

(** ** X21 and X22: the list of voices *)

Section VoicesProperties.

Variable encodeURI encodeURIComponent : string -> string.
Variable Voice : Type.
Variable SpeechSynthesisVoice : string -> string -> string -> Voice.
Variable name : Voice -> string.

Local Abbreviation insert_voice := (Voices.insert Voice name).
Local Abbreviation sort_voices := (Voices.sort Voice name).
Local Abbreviation ordered := (Voices.in_order Voice name).

Lemma ltb_asym (a b : string) : String.ltb a b = true -> String.ltb b a = false.
Proof.
  unfold String.ltb. rewrite (String.compare_antisym a b).
  now destruct (String.compare b a).
Qed.

Lemma ltb_irrefl_eq (a b : string) : String.ltb a b = true -> String.eqb a b = false.
Proof.
  unfold String.ltb. intros H. apply String.eqb_neq. intros ->.
  pose proof (String.compare_antisym b b) as Hrefl.
  destruct (String.compare b b); cbn in Hrefl; discriminate.
Qed.

Lemma insert_goes_after_smaller (v w : Voice) :
  (0 <? Voices.comparator Voice name v w)%Z = String.ltb (name w) (name v).
Proof.
  unfold Voices.comparator.
  destruct (String.ltb (name w) (name v)); [reflexivity|].
  now destruct (String.ltb (name v) (name w)).
Qed.

Lemma insert_permutation (v : Voice) (l : list Voice) :
  Permutation (insert_voice v l) (v :: l).
Proof.
  induction l as [|w l IH]; [reflexivity|]. cbn [Voices.insert].
  destruct (0 <? Voices.comparator Voice name v w)%Z; [|reflexivity].
  rewrite IH. apply perm_swap.
Qed.

Lemma insert_sorted (v : Voice) (l : list Voice) :
  Sorted ordered l -> Sorted ordered (insert_voice v l).
Proof.
  induction l as [|w l IH]; intros Hsorted; [repeat constructor|].
  cbn [Voices.insert]. rewrite insert_goes_after_smaller.
  destruct (String.ltb (name w) (name v)) eqn:Hlt.
  - apply Sorted_inv in Hsorted as [Hsorted Hhead].
    constructor; [now apply IH|].
    destruct l as [|x l]; cbn [Voices.insert].
    + constructor. now apply ltb_asym.
    + rewrite insert_goes_after_smaller.
      destruct (String.ltb (name x) (name v)).
      * constructor. now inversion Hhead.
      * constructor. now apply ltb_asym.
  - constructor; [assumption|]. constructor. exact Hlt.
Qed.

Lemma insert_stable (v : Voice) (l : list Voice) (n : string) :
  filter (fun x => String.eqb (name x) n) (insert_voice v l) =
  filter (fun x => String.eqb (name x) n) (v :: l).
Proof.
  induction l as [|w l IH]; [reflexivity|].
  cbn [Voices.insert]. rewrite insert_goes_after_smaller.
  destruct (String.ltb (name w) (name v)) eqn:Hlt; [|reflexivity].
  cbn [filter] in *. rewrite IH.
  destruct (String.eqb (name w) n) eqn:Hw, (String.eqb (name v) n) eqn:Hv; try reflexivity.
  apply String.eqb_eq in Hw, Hv. apply ltb_irrefl_eq in Hlt.
  apply String.eqb_neq in Hlt. congruence.
Qed.

Lemma sort_spec (l : list Voice) :
  Permutation (sort_voices l) l /\
  Sorted ordered (sort_voices l) /\
  forall n, filter (fun x => String.eqb (name x) n) (sort_voices l) =
            filter (fun x => String.eqb (name x) n) l.
Proof.
  induction l as [|v l (Hperm & Hsorted & Hstable)]; [repeat split; constructor|].
  cbn [Voices.sort fold_right]. fold (sort_voices l). repeat split.
  - rewrite insert_permutation. now constructor.
  - now apply insert_sorted.
  - intros n. rewrite insert_stable. cbn [filter]. now rewrite Hstable.
Qed.

End VoicesProperties.

(** X21.  When the service answers with an [ok] response whose body
    parses, [fetchVoices] returns the voices built from the entries of the
    body, each once, arranged so that no voice is followed by one with a
    smaller name, and with voices of the same name in the order of the
    body. *)
Theorem fetchVoices_sorts_by_name
    (encodeURI encodeURIComponent : string -> string)
    (Voice : Type) (SpeechSynthesisVoice : string -> string -> string -> Voice)
    (name : Voice -> string)
    (fetch : Voices.Request -> Failure + Voices.Response)
    (authorizationToken : string) (deploymentId : option string) (region : string)
    (entries : list Voices.Entry) :
  fetch (Voices.request encodeURI encodeURIComponent authorizationToken deploymentId region) =
    inr {| Voices.ok := true; Voices.json := inr entries |} ->
  exists voices,
    Voices.fetchVoices encodeURI encodeURIComponent Voice SpeechSynthesisVoice name fetch
      authorizationToken deploymentId region = inr voices /\
    Permutation voices (map (Voices.voice_of_entry Voice SpeechSynthesisVoice) entries) /\
    Sorted (Voices.in_order Voice name) voices /\
    forall n,
      filter (fun v => String.eqb (name v) n) voices =
      filter (fun v => String.eqb (name v) n)
        (map (Voices.voice_of_entry Voice SpeechSynthesisVoice) entries).
Proof.
  intros Hfetch. unfold Voices.fetchVoices. rewrite Hfetch. cbn.
  eexists. split; [reflexivity|]. apply sort_spec.
Qed.

Lemma fetchVoices_sorts_by_name_witness :
  two_voices (Voices.request (fun s => s) (fun s => s) "token" None "westus") =
    inr {| Voices.ok := true;
           Voices.json :=
             inr [ {| Voices.Gender := "Female"; Voices.Locale := "en-US";
                      Voices.Name := "Zira" |};
                   {| Voices.Gender := "Male"; Voices.Locale := "en-GB";
                      Voices.Name := "George" |} ] |} /\
  exists voices,
    Voices.fetchVoices (fun s => s) (fun s => s) string (fun _ _ voiceURI => voiceURI)
      (fun v => v) two_voices "token" None "westus" = inr voices /\
    Sorted (Voices.in_order string (fun v => v)) voices.
Proof.
  split; [reflexivity|].
  destruct (fetchVoices_sorts_by_name (fun s => s) (fun s => s) string
              (fun _ _ voiceURI => voiceURI) (fun v => v) two_voices "token" None "westus"
              _ eq_refl) as (voices & Hresult & _ & Hsorted & _).
  now exists voices.
Defined.

(** X22.  [fetchVoices] returns voices only for an [ok] response whose
    body parses: a response that is not [ok] makes it throw the error
    [Failed to fetch voices] whatever the body holds, and a failure of
    [fetch] or of [res.json()] is passed on. *)
Theorem fetchVoices_fails_without_an_ok_response
    (encodeURI encodeURIComponent : string -> string)
    (Voice : Type) (SpeechSynthesisVoice : string -> string -> string -> Voice)
    (name : Voice -> string)
    (fetch : Voices.Request -> Failure + Voices.Response)
    (authorizationToken : string) (deploymentId : option string) (region : string) :
  (forall res,
     fetch (Voices.request encodeURI encodeURIComponent authorizationToken deploymentId region)
       = inr res ->
     Voices.ok res = false ->
     Voices.fetchVoices encodeURI encodeURIComponent Voice SpeechSynthesisVoice name fetch
       authorizationToken deploymentId region = inl (Voices.Error "Failed to fetch voices")) /\
  (forall voices,
     Voices.fetchVoices encodeURI encodeURIComponent Voice SpeechSynthesisVoice name fetch
       authorizationToken deploymentId region = inr voices ->
     exists entries,
       fetch (Voices.request encodeURI encodeURIComponent authorizationToken deploymentId region)
         = inr {| Voices.ok := true; Voices.json := inr entries |}) /\
  (forall err,
     fetch (Voices.request encodeURI encodeURIComponent authorizationToken deploymentId region)
       = inl err ->
     Voices.fetchVoices encodeURI encodeURIComponent Voice SpeechSynthesisVoice name fetch
       authorizationToken deploymentId region = inl (Voices.Raised err)).
Proof.
  unfold Voices.fetchVoices. repeat split.
  - intros res -> Hok. now rewrite Hok.
  - intros voices.
    destruct (fetch _) as [err|[[] [err|entries]]]; cbn; try discriminate.
    intros _. now exists entries.
  - now intros err ->.
Qed.

Lemma fetchVoices_fails_without_an_ok_response_witness :
  Voices.ok {| Voices.ok := false; Voices.json := inl (Rejection "Unexpected token") |} = false /\
  Voices.fetchVoices (fun s => s) (fun s => s) string (fun _ _ voiceURI => voiceURI)
    (fun v => v) forbidden "token" None "westus" = inl (Voices.Error "Failed to fetch voices").
Proof.
  split; [reflexivity|].
  apply (proj1 (fetchVoices_fails_without_an_ok_response (fun s => s) (fun s => s) string
                  (fun _ _ voiceURI => voiceURI) (fun v => v) forbidden "token" None "westus")
           {| Voices.ok := false; Voices.json := inl (Rejection "Unexpected token") |});
    reflexivity.
Defined.
